(** * AlphaCala: the Mancala rules engine and its alpha-beta search

    A shallow embedding of [src/main.cpp]: the board, [next_pit_index],
    [play_move] and [minimax], followed by the properties of the
    specification that are stated about them, and then [print_board]
    and the game loop of [main] with further properties of the code.

    Conventions of the embedding.
    - [std::uint8_t] cells are integers of [Z] in [0, 256); every store
      into the board goes through [set], which truncates modulo 256 the
      way the conversion back to [std::uint8_t] does.
    - [int] values (pit indices, evaluations, alpha, beta) are integers
      of [Z]; no evaluation leaves [-1785, 1785], so the 32-bit range is
      never reached and no wrap-around is written for them.
    - [board_type] is a list of 14 cells.  Indexing outside [0, 14) is
      undefined behaviour in the source; [get] and [set] are total here
      ([get] answers 0, [set] changes nothing) and no theorem below
      depends on what they do there.
    - the [depth] of [minimax] is a natural number: the source counts it
      down to 0 and its only caller passes 20. *)

From Stdlib Require Import ZArith List Lia Bool.
From Stdlib Require String Ascii DecimalString.
Import ListNotations.
Local Open Scope Z_scope.

(** ** Board *)

Definition board_type := list Z.

(** Conversion of an [int] result to [std::uint8_t]. *)
Definition uint8 (z : Z) : Z := z mod 256.

(** [board[i]] read. *)
Definition get (board : board_type) (i : Z) : Z :=
  if i <? 0 then 0 else nth (Z.to_nat i) board 0.

Fixpoint set_nth (n : nat) (v : Z) (l : list Z) : list Z :=
  match l, n with
  | [], _ => []
  | _ :: tl, O => v :: tl
  | hd :: tl, S m => hd :: set_nth m v tl
  end.

(** [board[i] = v] write, with the truncation to 8 bits. *)
Definition set (board : board_type) (i : Z) (v : Z) : board_type :=
  if i <? 0 then board else set_nth (Z.to_nat i) (uint8 v) board.

(** [++board[i]]. *)
Definition incr (board : board_type) (i : Z) : board_type :=
  set board i (get board i + 1).

(** The sum of the cells. *)
Definition board_sum (board : board_type) : Z := fold_right Z.add 0 board.

(** What the type [std::array<std::uint8_t, 14>] guarantees. *)
Definition wf_board (board : board_type) : Prop :=
  length board = 14%nat /\ Forall (fun c => 0 <= c < 256) board.

Definition AC_PITS : list Z := [5; 4; 3; 2; 1; 0].
Definition OPP_PITS : list Z := [12; 11; 10; 9; 8; 7].

(** A sowing pit: an index of [0, 5] or of [7, 12]. *)
Definition is_pit (i : Z) : Prop := 0 <= i <= 5 \/ 7 <= i <= 12.

(** A legal move: a sowing pit that holds at least one seed. *)
Definition legal_move (board : board_type) (i : Z) : Prop :=
  is_pit i /\ get board i <> 0.

(** ** Rules engine *)

(** [next_pit_index] (lines 66-74).  [%] of C++ truncates, as [Z.rem]. *)
Definition next_pit_index (pit_index : Z) (is_ac_turn : bool) : Z :=
  if (pit_index =? 12) && is_ac_turn then 0
  else if (pit_index =? 5) && negb is_ac_turn then 7
  else Z.rem (pit_index + 1) 14.

(** The sowing loop of [play_move] (lines 89-93):
    [while (num_seeds > 1) { pit_index = next; ++board[pit_index];
    --num_seeds; }].  It is structural in the counter. *)
Fixpoint sow (num_seeds : nat) (board : board_type) (pit_index : Z)
    (is_ac_move : bool) : board_type * Z :=
  match num_seeds with
  | S (S _ as rest) =>
      let pit_index := next_pit_index pit_index is_ac_move in
      sow rest (incr board pit_index) pit_index is_ac_move
  | _ => (board, pit_index)
  end.

(** The rule for the last seed (lines 97-119), once the cursor has been
    advanced onto the landing pit. *)
Definition land (board : board_type) (pit_index : Z) (is_ac_move : bool)
    : board_type * bool :=
  if (pit_index =? 6) || (pit_index =? 13) then (incr board pit_index, true)
  else
    let end_on_ac_side := pit_index <=? 5 in
    let facing_index := 12 - pit_index in
    if (get board pit_index =? 0)
       && ((get board facing_index >? 0)
           && Bool.eqb end_on_ac_side is_ac_move)
    then
      let store_index := if is_ac_move then 6 else 13 in
      let board :=
        set board store_index
            (get board store_index + (1 + get board facing_index)) in
      (set board facing_index 0, false)
    else (incr board pit_index, false).

(** [play_move] (lines 83-120): the board after the move and whether the
    mover plays again. *)
Definition play_move (board : board_type) (pit_index : Z)
    : board_type * bool :=
  let is_ac_move := pit_index <=? 5 in
  let num_seeds := get board pit_index in
  let board := set board pit_index 0 in
  let '(board, pit_index) :=
    sow (Z.to_nat num_seeds) board pit_index is_ac_move in
  let pit_index := next_pit_index pit_index is_ac_move in
  land board pit_index is_ac_move.

(** The board and the cursor when the sowing loop ends, and the landing
    pit the cursor is then advanced to (line 95). *)
Definition sown (board : board_type) (pit_index : Z) : board_type * Z :=
  sow (Z.to_nat (get board pit_index)) (set board pit_index 0) pit_index
      (pit_index <=? 5).

Definition mid_board (board : board_type) (pit_index : Z) : board_type :=
  fst (sown board pit_index).

Definition landing_index (board : board_type) (pit_index : Z) : Z :=
  next_pit_index (snd (sown board pit_index)) (pit_index <=? 5).

Definition start_board : board_type :=
  [4; 4; 4; 4; 4; 4; 0; 4; 4; 4; 4; 4; 4; 0].

(** ** Search engine *)

(** The evaluation of a position: the difference of the stores. *)
Definition store_diff (board : board_type) : Z := get board 6 - get board 13.

Section Loops.

(** The recursive call [minimax(board_copy, turn, depth - 1, nullptr,
    alpha, beta)] of the two loops. *)
Variable child : board_type -> bool -> Z -> Z -> Z.

(** The loop over [AC_PITS] (lines 147-162), from the state
    [(best_eval, best_move, alpha)]; [beta] does not change in it. *)
Fixpoint ac_loop (board : board_type) (pits : list Z)
    (best_eval best_move alpha beta : Z) : Z * Z :=
  match pits with
  | [] => (best_eval, best_move)
  | i :: rest =>
      if get board i =? 0
      then ac_loop board rest best_eval best_move alpha beta
      else
        let '(board_copy, go_again) := play_move board i in
        let tmp_eval := child board_copy go_again alpha beta in
        let '(best_eval, best_move) :=
          if tmp_eval >? best_eval then (tmp_eval, i)
          else (best_eval, best_move) in
        let alpha := Z.max alpha tmp_eval in
        if beta <=? alpha then (best_eval, best_move)
        else ac_loop board rest best_eval best_move alpha beta
  end.

(** The loop over [OPP_PITS] (lines 164-179), from the state
    [(best_eval, best_move, beta)]; [alpha] does not change in it. *)
Fixpoint opp_loop (board : board_type) (pits : list Z)
    (best_eval best_move alpha beta : Z) : Z * Z :=
  match pits with
  | [] => (best_eval, best_move)
  | i :: rest =>
      if get board i =? 0
      then opp_loop board rest best_eval best_move alpha beta
      else
        let '(board_copy, go_again) := play_move board i in
        let tmp_eval := child board_copy (negb go_again) alpha beta in
        let '(best_eval, best_move) :=
          if tmp_eval <? best_eval then (tmp_eval, i)
          else (best_eval, best_move) in
        let beta := Z.min beta tmp_eval in
        if beta <=? alpha then (best_eval, best_move)
        else opp_loop board rest best_eval best_move alpha beta
  end.

(** The children the loops evaluate, in the order of the scan, each
    with the value the recursive call returned for it: the same
    skipping of empty pits, the same windows and the same [break]. *)
Fixpoint ac_trace (board : board_type) (pits : list Z) (alpha beta : Z)
    : list (Z * Z) :=
  match pits with
  | [] => []
  | i :: rest =>
      if get board i =? 0 then ac_trace board rest alpha beta
      else
        let '(board_copy, go_again) := play_move board i in
        let tmp_eval := child board_copy go_again alpha beta in
        let alpha := Z.max alpha tmp_eval in
        (i, tmp_eval)
          :: (if beta <=? alpha then [] else ac_trace board rest alpha beta)
  end.

Fixpoint opp_trace (board : board_type) (pits : list Z) (alpha beta : Z)
    : list (Z * Z) :=
  match pits with
  | [] => []
  | i :: rest =>
      if get board i =? 0 then opp_trace board rest alpha beta
      else
        let '(board_copy, go_again) := play_move board i in
        let tmp_eval := child board_copy (negb go_again) alpha beta in
        let beta := Z.min beta tmp_eval in
        (i, tmp_eval)
          :: (if beta <=? alpha then [] else opp_trace board rest alpha beta)
  end.

End Loops.

(** The evaluation when the side to move has no move (lines 188-201):
    the seeds left on the other side go to the other side's store. *)
Definition sweep_eval (board : board_type) (is_ac_turn : bool) : Z :=
  let eval := get board 6 - get board 13 in
  if is_ac_turn
  then fold_left (fun eval i => eval - get board i) OPP_PITS eval
  else fold_left (fun eval i => eval + get board i) AC_PITS eval.

(** [if (move_out != nullptr) *move_out = best_move;] (lines 182-184).
    The output slot is [None] for [nullptr] and [Some v] for a pointer
    to an [int] that holds [v]. *)
Definition store_move (move_out : option Z) (best_move : Z) : option Z :=
  match move_out with
  | None => None
  | Some _ => Some best_move
  end.

(** [minimax] (lines 136-204): the evaluation it returns and the
    contents of the output slot when it returns. *)
Fixpoint minimax (depth : nat) (board : board_type) (is_ac_turn : bool)
    (move_out : option Z) (alpha beta : Z) : Z * option Z :=
  match depth with
  | O => (get board 6 - get board 13, move_out)
  | S depth' =>
      let child := fun b turn a be => fst (minimax depth' b turn None a be) in
      let '(best_eval, best_move) :=
        if is_ac_turn
        then ac_loop child board AC_PITS (-99) (-1) alpha beta
        else opp_loop child board OPP_PITS 99 (-1) alpha beta in
      let move_out := store_move move_out best_move in
      if best_move =? -1 then (sweep_eval board is_ac_turn, move_out)
      else (best_eval, move_out)
  end.

(** The value of the position alone, as the recursive calls use it. *)
Definition minimax_eval (depth : nat) (board : board_type) (turn : bool)
    (alpha beta : Z) : Z :=
  fst (minimax depth board turn None alpha beta).

(** [minimax] reports the move [m]: whatever the output slot held, it
    holds [m] when the call returns. *)
Definition reports (depth : nat) (board : board_type) (is_ac_turn : bool)
    (alpha beta : Z) (m : Z) : Prop :=
  forall v, snd (minimax depth board is_ac_turn (Some v) alpha beta) = Some m.

(** The children one call of [minimax] at depth [S depth'] evaluates. *)
Definition scan_trace (depth' : nat) (board : board_type) (is_ac_turn : bool)
    (alpha beta : Z) : list (Z * Z) :=
  if is_ac_turn
  then ac_trace (minimax_eval depth') board AC_PITS alpha beta
  else opp_trace (minimax_eval depth') board OPP_PITS alpha beta.

(** For the side to move, [e] is a strictly better score than [e']. *)
Definition better (is_ac_turn : bool) (e e' : Z) : Prop :=
  if is_ac_turn then e' < e else e < e'.

(** ** Plain minimax, as the specification words it

    Fixed depth, no pruning: the store difference at depth 0, the sweep
    evaluation when the side to move has no move, and otherwise the
    largest (AlphaCala) or smallest (opponent) value of the children
    reached by [play_move] from the non-empty pits. *)

Definition legal_pits (board : board_type) (pits : list Z) : list Z :=
  filter (fun i => negb (get board i =? 0)) pits.

Definition best_of (pick : Z -> Z -> Z) (default : Z) (l : list Z) : Z :=
  match l with
  | [] => default
  | x :: xs => fold_left pick xs x
  end.

Fixpoint plain_minimax (depth : nat) (board : board_type) (is_ac_turn : bool)
    : Z :=
  match depth with
  | O => store_diff board
  | S depth' =>
      if is_ac_turn
      then best_of Z.max (sweep_eval board true)
             (map (fun i => let '(b, again) := play_move board i in
                            plain_minimax depth' b again)
                  (legal_pits board AC_PITS))
      else best_of Z.min (sweep_eval board false)
             (map (fun i => let '(b, again) := play_move board i in
                            plain_minimax depth' b (negb again))
                  (legal_pits board OPP_PITS))
  end.

(** ** Vocabulary of the statements *)

(** The store of the mover (line 109). *)
Definition mover_store (is_ac_move : bool) : Z := if is_ac_move then 6 else 13.

(** The three conditions of a capture, read on the board [mid] the last
    seed arrives on, for the landing pit [l]. *)
Definition capture_condition (mid : board_type) (l : Z) (is_ac_move : bool)
    : Prop :=
  get mid l = 0
  /\ (if is_ac_move then l <= 5 else 7 <= l <= 12)
  /\ get mid (12 - l) <> 0.

(** What a capture leaves on the board [after], from the board [mid]. *)
Definition captured (mid after : board_type) (l : Z) (is_ac_move : bool)
    : Prop :=
  get after (mover_store is_ac_move)
    = uint8 (get mid (mover_store is_ac_move) + 1 + get mid (12 - l))
  /\ get after (12 - l) = 0
  /\ get after l = 0.

(** A board of bytes on which a cell is full. *)
Definition full_pit_board : board_type :=
  [0; 0; 1; 255; 0; 0; 0; 0; 0; 0; 0; 0; 0; 0].

(** The same with no seed in pit 2. *)
Definition empty_source_board : board_type :=
  [0; 0; 0; 255; 0; 0; 0; 0; 0; 0; 0; 0; 0; 0].

(** A position in which pit 0 captures: its one seed lands in the empty
    pit 1, which faces the three seeds of pit 11. *)
Definition capture_example : board_type :=
  [1; 0; 0; 0; 0; 0; 0; 0; 0; 0; 0; 3; 0; 0].

(** A position in which AlphaCala has no seed to play. *)
Definition ac_swept_board : board_type :=
  [0; 0; 0; 0; 0; 0; 4; 2; 0; 0; 0; 0; 1; 3].

(** The result of the two loops at depth [S d]. *)
Definition scan (d : nat) (board : board_type) (is_ac_turn : bool)
    (alpha beta : Z) : Z * Z :=
  if is_ac_turn
  then ac_loop (minimax_eval d) board AC_PITS (-99) (-1) alpha beta
  else opp_loop (minimax_eval d) board OPP_PITS 99 (-1) alpha beta.

(** ** Vocabulary of the refinement *)

(** A board of bytes that holds at most the 48 seeds of a game. *)
Definition small_board (board : board_type) : Prop :=
  wf_board board /\ board_sum board <= 48.

(** The plain values of the children of the non-empty pits of a scan
    list, in the order of the list. *)
Definition ac_values (value : board_type -> bool -> Z) (board : board_type)
    (pits : list Z) : list Z :=
  map (fun i => let '(b, again) := play_move board i in value b again)
      (legal_pits board pits).

Definition opp_values (value : board_type -> bool -> Z) (board : board_type)
    (pits : list Z) : list Z :=
  map (fun i => let '(b, again) := play_move board i in value b (negb again))
      (legal_pits board pits).

(** What a search with the window [(alpha, beta)] that returns [r] tells
    about the plain value [t]: both are evaluations of a game of 48
    seeds, [r] is an upper bound of [t] when it fails low, a lower bound
    when it fails high, and [t] itself inside the window. *)
Definition window_sound (alpha beta r t : Z) : Prop :=
  -48 <= r <= 48 /\ -48 <= t <= 48
  /\ (r <= alpha -> t <= r)
  /\ (beta <= r -> r <= t)
  /\ (alpha < r < beta -> r = t).

(** ** Vocabulary of the further properties *)

(** The cursor [k] calls of [next_pit_index] after [pit_index]. *)
Fixpoint advance (k : nat) (pit_index : Z) (is_ac_move : bool) : Z :=
  match k with
  | O => pit_index
  | S k' => advance k' (next_pit_index pit_index is_ac_move) is_ac_move
  end.

(** The store of the side that is not moving. *)
Definition other_store (is_ac_move : bool) : Z := if is_ac_move then 13 else 6.

(** How many of the [k] cells after [pit_index] on the mover's cycle are
    the cell [c]. *)
Fixpoint visits (k : nat) (pit_index : Z) (is_ac_move : bool) (c : Z) : Z :=
  match k with
  | O => 0
  | S k' =>
      let next := next_pit_index pit_index is_ac_move in
      (if next =? c then 1 else 0) + visits k' next is_ac_move c
  end.

(** A position in which the opponent's pit 8 holds 13 seeds. *)
Definition lap_board : board_type :=
  [0; 0; 0; 0; 2; 0; 0; 0; 13; 0; 0; 0; 0; 2].

(** ** The game loop of [main]

    The loop of lines 228-252 without its printing: the position is the
    board and the turn flag.  On AlphaCala's turn [minimax] is asked for
    a move through [&ac_move], an [int] that [main] does not
    initialise and that holds [junk] here; the sentinel -1 ends the
    game.  On the opponent's turn the row read from the input gives the
    pit [12 - row]. *)

(** [if (!go_again) is_ac_turn = !is_ac_turn;] (lines 249-251). *)
Definition next_turn (is_ac_turn go_again : bool) : bool :=
  if go_again then is_ac_turn else negb is_ac_turn.

(** One round of the loop; [None] is the [break] of line 237. *)
Definition game_step (depth : nat) (junk : Z) (board : board_type)
    (is_ac_turn : bool) (row : Z) : option (board_type * bool) :=
  if is_ac_turn then
    match snd (minimax depth board true (Some junk) (-99) 99) with
    | Some ac_move =>
        if ac_move =? -1 then None
        else
          let '(board, go_again) := play_move board ac_move in
          Some (board, next_turn is_ac_turn go_again)
    | None => None
    end
  else
    let '(board, go_again) := play_move board (12 - row) in
    Some (board, next_turn is_ac_turn go_again).

(** The board [main] builds (lines 216-225) over the cells [board]
    starts with, which it does not initialise. *)
Definition init_board (start_seeds : Z) (board : board_type) : board_type :=
  let board := fold_left (fun b i => set b i start_seeds) AC_PITS board in
  let board := fold_left (fun b i => set b i start_seeds) OPP_PITS board in
  let board := set board 6 0 in
  set board 13 0.

(** The positions the loop of [main] goes through, from the board of
    [init_board] and either first player, when every row the opponent
    enters is a row of 0..5 whose pit is not empty. *)
Inductive game_position (depth : nat) : board_type -> bool -> Prop :=
| game_start (garbage : board_type) (is_ac_turn : bool) :
    wf_board garbage ->
    game_position depth (init_board 4 garbage) is_ac_turn
| game_round (junk row : Z) (board board' : board_type)
    (is_ac_turn is_ac_turn' : bool) :
    game_position depth board is_ac_turn ->
    (is_ac_turn = false -> 0 <= row <= 5 /\ get board (12 - row) <> 0) ->
    game_step depth junk board is_ac_turn row = Some (board', is_ac_turn') ->
    game_position depth board' is_ac_turn'.

(** ** Printing

    [print_board] (lines 34-56) as the characters it sends to
    [std::cout]. *)

(** [std::endl] writes a line feed. *)
Definition endl : String.string :=
  String.String (Ascii.ascii_of_nat 10) String.EmptyString.

(** [n] copies of the character [c]. *)
Fixpoint fill (n : nat) (c : Ascii.ascii) : String.string :=
  match n with
  | O => String.EmptyString
  | S m => String.String c (fill m c)
  end.

(** An [int] in decimal. *)
Definition show_int (v : Z) : String.string :=
  DecimalString.NilZero.string_of_int (Z.to_int v).

(** [std::cout << std::setw(2) << std::setfill('0') << v]: the decimal
    digits, with zeros in front up to the width of 2. *)
Definition show_int_w2 (v : Z) : String.string :=
  let s := show_int v in
  String.append (fill (2 - String.length s) (Ascii.ascii_of_nat 48)) s.

(** The lambda [print_pit] (lines 35-43): [num_spaces] spaces, then the
    cell. *)
Definition print_pit (board : board_type) (index : Z) (num_spaces : nat)
    : String.string :=
  String.append (fill num_spaces (Ascii.ascii_of_nat 32))
                (show_int_w2 (get board index)).

Definition print_board (board : board_type) : String.string :=
  String.append (print_pit board 13 2)
    (String.append endl
      (String.append
        (fold_right String.append String.EmptyString
           (map (fun i =>
                   String.append (print_pit board i 0)
                     (String.append (print_pit board (12 - i) 2) endl))
                [0; 1; 2; 3; 4; 5]))
        (String.append (print_pit board 6 2) endl))).

(** The decimal digits, and the strings made of them. *)
Definition is_digit (c : Ascii.ascii) : bool :=
  let n := Ascii.nat_of_ascii c in ((48 <=? n) && (n <=? 57))%nat.

Fixpoint digits_only (s : String.string) : bool :=
  match s with
  | String.EmptyString => true
  | String.String c rest => is_digit c && digits_only rest
  end.

(** The values of a cell. *)
Definition bytes : list Z := map Z.of_nat (seq 0 256).

(** Boards of bytes on which a store is close to full, and a board on
    which the opponent's store holds 99 seeds. *)
Definition rich_store_board : board_type :=
  [1; 0; 0; 0; 0; 0; 250; 0; 0; 0; 0; 10; 0; 0].

Definition full_store_board : board_type :=
  [0; 0; 0; 0; 0; 1; 255; 0; 0; 0; 0; 0; 0; 0].

Definition far_behind_board : board_type :=
  [0; 0; 0; 1; 1; 0; 0; 0; 0; 0; 0; 0; 0; 99].

(** * Properties *)

(** The two scenarios of the specification: pit 2 of the starting
    board, and a single seed in pit 5. *)
Example scenario_pit2 :
  play_move start_board 2 = ([4; 4; 0; 5; 5; 5; 1; 4; 4; 4; 4; 4; 4; 0], true).
Proof. reflexivity. Qed.

Example scenario_pit5 :
  play_move [0; 0; 0; 0; 0; 1; 0; 0; 0; 0; 0; 0; 0; 7] 5
  = ([0; 0; 0; 0; 0; 0; 1; 0; 0; 0; 0; 0; 0; 7], true).
Proof. reflexivity. Qed.

(** ** Reading and writing cells *)

Lemma uint8_range (z : Z) : 0 <= uint8 z < 256.
Proof. unfold uint8. apply Z.mod_pos_bound. lia. Qed.

Lemma uint8_small (z : Z) : 0 <= z < 256 -> uint8 z = z.
Proof. intros H. unfold uint8. apply Z.mod_small. exact H. Qed.

Lemma length_set_nth (n : nat) (v : Z) (l : list Z) :
  length (set_nth n v l) = length l.
Proof.
  revert n. induction l as [|hd tl IH]; intros [|n]; simpl; auto.
Qed.

Lemma nth_set_nth_same (n : nat) (v : Z) (l : list Z) :
  (n < length l)%nat -> nth n (set_nth n v l) 0 = v.
Proof.
  revert n. induction l as [|hd tl IH]; intros [|n] Hn; simpl in *;
    try lia; auto.
  apply IH. lia.
Qed.

Lemma nth_set_nth_other (n m : nat) (v : Z) (l : list Z) :
  n <> m -> nth m (set_nth n v l) 0 = nth m l 0.
Proof.
  revert n m. induction l as [|hd tl IH]; intros [|n] [|m] Hnm; simpl;
    try reflexivity; try congruence.
  apply IH. congruence.
Qed.

Lemma sum_set_nth (n : nat) (v : Z) (l : list Z) :
  (n < length l)%nat ->
  board_sum (set_nth n v l) = board_sum l - nth n l 0 + v.
Proof.
  revert n. induction l as [|hd tl IH]; intros [|n] Hn; simpl in *;
    try lia.
  rewrite IH by lia. lia.
Qed.

Lemma Forall_set_nth (P : Z -> Prop) (n : nat) (v : Z) (l : list Z) :
  P v -> Forall P l -> Forall P (set_nth n v l).
Proof.
  intros Hv Hl. revert n.
  induction Hl as [|hd tl Hhd Htl IH]; intros [|n]; simpl;
    constructor; auto.
Qed.

Lemma length_set (b : board_type) (i v : Z) : length (set b i v) = length b.
Proof.
  unfold set. destruct (i <? 0); [reflexivity | apply length_set_nth].
Qed.

Lemma wf_set (b : board_type) (i v : Z) : wf_board b -> wf_board (set b i v).
Proof.
  intros [Hlen Hall]. split.
  - rewrite length_set. exact Hlen.
  - unfold set. destruct (i <? 0); [exact Hall |].
    apply Forall_set_nth; [apply uint8_range | exact Hall].
Qed.

Lemma wf_incr (b : board_type) (i : Z) : wf_board b -> wf_board (incr b i).
Proof. apply wf_set. Qed.

Lemma get_set_same (b : board_type) (i v : Z) :
  0 <= i < Z.of_nat (length b) -> get (set b i v) i = uint8 v.
Proof.
  intros Hi. unfold get, set.
  destruct (Z.ltb_spec i 0); [lia |].
  apply nth_set_nth_same. lia.
Qed.

Lemma get_set_other (b : board_type) (i j v : Z) :
  0 <= i -> 0 <= j -> i <> j -> get (set b i v) j = get b j.
Proof.
  intros Hi Hj Hij. unfold get, set.
  destruct (Z.ltb_spec i 0); [lia |].
  destruct (Z.ltb_spec j 0); [lia |].
  apply nth_set_nth_other. lia.
Qed.

Lemma sum_set (b : board_type) (i v : Z) :
  0 <= i < Z.of_nat (length b) ->
  board_sum (set b i v) = board_sum b - get b i + uint8 v.
Proof.
  intros Hi. unfold get, set.
  destruct (Z.ltb_spec i 0); [lia |].
  apply sum_set_nth. lia.
Qed.

Lemma get_range (b : board_type) (i : Z) : wf_board b -> 0 <= get b i < 256.
Proof.
  intros [_ Hall]. unfold get.
  destruct (i <? 0); [lia |].
  destruct (Nat.lt_ge_cases (Z.to_nat i) (length b)) as [Hlt | Hge].
  - rewrite Forall_forall in Hall. apply Hall. apply nth_In. exact Hlt.
  - rewrite nth_overflow by exact Hge. lia.
Qed.

Lemma Forall_nonneg_sum (l : list Z) :
  Forall (fun c => 0 <= c < 256) l -> 0 <= board_sum l.
Proof. induction 1; simpl; lia. Qed.

Lemma nth_le_sum (l : list Z) (n : nat) :
  Forall (fun c => 0 <= c < 256) l -> nth n l 0 <= board_sum l.
Proof.
  intros Hall. revert n.
  induction Hall as [|hd tl Hhd Htl IH]; intros [|n]; simpl; try lia.
  - pose proof (Forall_nonneg_sum tl Htl). lia.
  - specialize (IH n). lia.
Qed.

Lemma get_le_sum (b : board_type) (i : Z) :
  wf_board b -> get b i <= board_sum b.
Proof.
  intros [_ Hall]. unfold get. destruct (i <? 0).
  - apply Forall_nonneg_sum. exact Hall.
  - apply nth_le_sum. exact Hall.
Qed.

Lemma sum_nonneg (b : board_type) : wf_board b -> 0 <= board_sum b.
Proof. intros [_ Hall]. apply Forall_nonneg_sum. exact Hall. Qed.

Lemma set_same_value (b : board_type) (i : Z) :
  wf_board b -> set b i (get b i) = b.
Proof.
  intros Hwf. pose proof (get_range b i Hwf) as Hr.
  unfold set, get in *. destruct (i <? 0); [reflexivity |].
  rewrite uint8_small by exact Hr. clear.
  generalize (Z.to_nat i) as n. induction b as [|hd tl IH]; intros [|n];
    simpl; try reflexivity.
  rewrite IH. reflexivity.
Qed.

Lemma set_set (b : board_type) (i v w : Z) :
  set (set b i v) i w = set b i w.
Proof.
  unfold set. destruct (i <? 0); [reflexivity |].
  generalize (Z.to_nat i) as n. induction b as [|hd tl IH]; intros [|n];
    simpl; try reflexivity.
  rewrite IH. reflexivity.
Qed.

(** The sum after [++board[i]] when the cell does not overflow. *)
Lemma sum_incr (b : board_type) (i : Z) :
  wf_board b -> 0 <= i < 14 -> get b i < 255 ->
  board_sum (incr b i) = board_sum b + 1.
Proof.
  intros Hwf Hi Hlt. unfold incr.
  pose proof (get_range b i Hwf).
  rewrite sum_set by (destruct Hwf as [-> _]; lia).
  rewrite uint8_small by lia. lia.
Qed.

(** ** [next_pit_index] *)

Lemma next_pit_index_range (i : Z) (mover : bool) :
  0 <= i < 14 -> 0 <= next_pit_index i mover < 14.
Proof.
  intros Hi. unfold next_pit_index.
  destruct ((i =? 12) && mover); [lia |].
  destruct ((i =? 5) && negb mover); [lia |].
  rewrite Z.rem_mod_nonneg by lia.
  apply Z.mod_pos_bound. lia.
Qed.

(** ** The sowing loop and the landing rule *)

Lemma sow_step (k : nat) (b : board_type) (idx : Z) (mover : bool) :
  sow (S (S k)) b idx mover =
  sow (S k) (incr b (next_pit_index idx mover)) (next_pit_index idx mover)
      mover.
Proof. reflexivity. Qed.

Lemma sow_wf (n : nat) (b : board_type) (idx : Z) (mover : bool) :
  wf_board b -> 0 <= idx < 14 ->
  wf_board (fst (sow n b idx mover)) /\ 0 <= snd (sow n b idx mover) < 14.
Proof.
  revert b idx. induction n as [|n IH]; intros b idx Hwf Hidx.
  - simpl. auto.
  - destruct n as [|k]; [simpl; auto |].
    rewrite sow_step. apply IH.
    + apply wf_incr. exact Hwf.
    + apply next_pit_index_range. exact Hidx.
Qed.

(** Without overflow the loop adds one seed to the board per round. *)
Lemma sow_sum (n : nat) (b : board_type) (idx : Z) (mover : bool) :
  wf_board b -> 0 <= idx < 14 ->
  board_sum b + Z.of_nat (Nat.pred n) <= 255 ->
  board_sum (fst (sow n b idx mover)) = board_sum b + Z.of_nat (Nat.pred n).
Proof.
  revert b idx. induction n as [|n IH]; intros b idx Hwf Hidx Hsum.
  - simpl. lia.
  - destruct n as [|k]; [simpl; lia |].
    rewrite sow_step.
    pose proof (next_pit_index_range idx mover Hidx) as Hnext.
    pose proof (get_le_sum b (next_pit_index idx mover) Hwf) as Hle.
    assert (Hinc : board_sum (incr b (next_pit_index idx mover))
                   = board_sum b + 1).
    { apply sum_incr; auto. simpl Nat.pred in Hsum. lia. }
    rewrite IH.
    + rewrite Hinc. simpl Nat.pred. lia.
    + apply wf_incr. exact Hwf.
    + exact Hnext.
    + rewrite Hinc. simpl Nat.pred in *. lia.
Qed.

Lemma land_wf (b : board_type) (l : Z) (mover : bool) :
  wf_board b -> wf_board (fst (land b l mover)).
Proof.
  intros Hwf. unfold land.
  destruct ((l =? 6) || (l =? 13)); cbn [fst]; [apply wf_incr; exact Hwf |].
  destruct ((get b l =? 0)
            && ((get b (12 - l) >? 0) && Bool.eqb (l <=? 5) mover)); cbn [fst].
  - apply wf_set, wf_set. exact Hwf.
  - apply wf_incr. exact Hwf.
Qed.

(** Two different cells together hold no more than the whole board. *)
Lemma two_cells_le_sum (b : board_type) (i j : Z) :
  wf_board b -> 0 <= i < 14 -> 0 <= j < 14 -> i <> j ->
  get b i + get b j <= board_sum b.
Proof.
  intros Hwf Hi Hj Hij.
  pose proof (get_le_sum (set b j 0) i (wf_set b j 0 Hwf)) as Hle.
  rewrite get_set_other in Hle by lia.
  rewrite sum_set in Hle by (destruct Hwf as [-> _]; lia).
  rewrite uint8_small in Hle by lia. lia.
Qed.

(** Without overflow the last seed adds one seed to the board, whichever
    of the three ways it lands. *)
Lemma land_sum (b : board_type) (l : Z) (mover : bool) :
  wf_board b -> 0 <= l < 14 -> board_sum b + 1 <= 255 ->
  board_sum (fst (land b l mover)) = board_sum b + 1.
Proof.
  intros Hwf Hl Hsum. unfold land.
  pose proof (get_le_sum b l Hwf) as Hlel.
  destruct ((l =? 6) || (l =? 13)) eqn:Hstore; cbn [fst].
  { apply sum_incr; auto. lia. }
  apply orb_false_iff in Hstore. destruct Hstore as [H6 H13].
  apply Z.eqb_neq in H6. apply Z.eqb_neq in H13.
  destruct ((get b l =? 0)
            && ((get b (12 - l) >? 0) && Bool.eqb (l <=? 5) mover)); cbn [fst].
  - set (s := if mover then 6 else 13).
    assert (Hs : 0 <= s < 14 /\ s <> 12 - l)
      by (subst s; destruct mover; lia).
    pose proof (two_cells_le_sum b s (12 - l) Hwf) as Htwo.
    pose proof (get_range b s Hwf) as Hrs.
    pose proof (get_range b (12 - l) Hwf) as Hrf.
    pose proof Hwf as [Hlen _].
    rewrite sum_set by (rewrite length_set, Hlen; lia).
    rewrite get_set_other by lia.
    rewrite sum_set by (rewrite Hlen; lia).
    rewrite (uint8_small 0) by lia.
    rewrite uint8_small by lia. lia.
  - apply sum_incr; auto. lia.
Qed.

Lemma play_move_unfold (b : board_type) (i : Z) :
  play_move b i = land (mid_board b i) (landing_index b i) (i <=? 5).
Proof.
  unfold play_move, mid_board, landing_index, sown.
  destruct (sow _ _ _ _) as [b' idx]. reflexivity.
Qed.

Lemma mid_board_wf (b : board_type) (i : Z) :
  wf_board b -> 0 <= i < 14 -> wf_board (mid_board b i).
Proof.
  intros Hwf Hi. unfold mid_board, sown.
  apply sow_wf; [apply wf_set; exact Hwf | exact Hi].
Qed.

Lemma landing_index_range (b : board_type) (i : Z) :
  wf_board b -> 0 <= i < 14 -> 0 <= landing_index b i < 14.
Proof.
  intros Hwf Hi. unfold landing_index, sown.
  apply next_pit_index_range.
  apply sow_wf; [apply wf_set; exact Hwf | exact Hi].
Qed.

Lemma play_move_wf (b : board_type) (i : Z) :
  wf_board b -> 0 <= i < 14 -> wf_board (fst (play_move b i)).
Proof.
  intros Hwf Hi. rewrite play_move_unfold.
  apply land_wf, mid_board_wf; assumption.
Qed.

(** The seeds on the board when the sowing loop ends: all but the one
    that is still to land (none is missing when the pit was empty). *)
Lemma mid_board_sum (b : board_type) (i : Z) :
  wf_board b -> 0 <= i < 14 -> board_sum b <= 255 ->
  board_sum (mid_board b i) = board_sum b - Z.min 1 (get b i).
Proof.
  intros Hwf Hi Hsum. unfold mid_board, sown.
  pose proof (get_range b i Hwf) as Hr.
  pose proof Hwf as [Hlen _].
  assert (Hzero : board_sum (set b i 0) = board_sum b - get b i).
  { rewrite sum_set by (rewrite Hlen; lia). rewrite uint8_small; lia. }
  rewrite sow_sum; [| apply wf_set; exact Hwf | exact Hi | rewrite Hzero; lia].
  rewrite Hzero. lia.
Qed.

(** Conservation, for a legal move on a board that cannot overflow. *)
Lemma play_move_sum (b : board_type) (i : Z) :
  wf_board b -> 0 <= i < 14 -> get b i <> 0 -> board_sum b <= 255 ->
  board_sum (fst (play_move b i)) = board_sum b.
Proof.
  intros Hwf Hi Hne Hsum.
  pose proof (get_range b i Hwf) as Hr.
  pose proof (mid_board_sum b i Hwf Hi Hsum) as Hmid.
  rewrite play_move_unfold, land_sum.
  - lia.
  - apply mid_board_wf; assumption.
  - apply landing_index_range; assumption.
  - lia.
Qed.

Lemma is_pit_range (i : Z) : is_pit i -> 0 <= i < 14.
Proof. unfold is_pit. lia. Qed.

(** ** Rules engine: the claims *)

(** C3, as amended.  Conservation: on a board whose 14 cells sum to at
    most 255, a legal move leaves the sum of the 14 cells unchanged. *)
Theorem play_move_conserves (b : board_type) (i : Z) :
  wf_board b -> legal_move b i -> board_sum b <= 255 ->
  board_sum (fst (play_move b i)) = board_sum b.
Proof.
  intros Hwf [Hpit Hne] Hsum.
  apply play_move_sum; auto using is_pit_range.
Qed.

Lemma play_move_conserves_witness :
  wf_board start_board /\ legal_move start_board 2
  /\ board_sum start_board <= 255
  /\ board_sum (fst (play_move start_board 2)) = board_sum start_board.
Proof.
  assert (Hwf : wf_board start_board)
    by (split; [reflexivity | repeat constructor; lia]).
  assert (Hlegal : legal_move start_board 2)
    by (split; [left; lia | vm_compute; discriminate]).
  assert (Hsum : board_sum start_board <= 255)
    by (vm_compute; discriminate).
  split; [exact Hwf |]. split; [exact Hlegal |]. split; [exact Hsum |].
  exact (play_move_conserves start_board 2 Hwf Hlegal Hsum).
Defined.

(** C3, as stated, fails on a board of bytes that overflows: one seed
    played from pit 2 onto a pit that holds 255 wraps that pit to 0, and
    the sum of the cells goes from 256 to 0. *)
Lemma conservation_fails_on_overflow :
  wf_board full_pit_board
  /\ legal_move full_pit_board 2
  /\ board_sum full_pit_board = 256
  /\ board_sum (fst (play_move full_pit_board 2)) = 0.
Proof.
  split; [split; [reflexivity | repeat constructor; lia] |].
  split; [split; [left; lia | vm_compute; discriminate] |].
  split; reflexivity.
Qed.

Lemma land_snd (m : board_type) (l : Z) (mover : bool) :
  snd (land m l mover) = (l =? 6) || (l =? 13).
Proof.
  unfold land. destruct ((l =? 6) || (l =? 13)); [reflexivity |].
  destruct ((get m l =? 0)
            && ((get m (12 - l) >? 0) && Bool.eqb (l <=? 5) mover));
    reflexivity.
Qed.

Lemma land_store (m : board_type) (l : Z) (mover : bool) :
  l = 6 \/ l = 13 -> land m l mover = (incr m l, true).
Proof.
  intros Hl. unfold land.
  replace ((l =? 6) || (l =? 13)) with true; [reflexivity |].
  symmetry. apply orb_true_iff. rewrite !Z.eqb_eq. exact Hl.
Qed.

Lemma get_incr_same (m : board_type) (l : Z) :
  wf_board m -> 0 <= l < 14 -> get (incr m l) l = uint8 (get m l + 1).
Proof.
  intros [Hlen _] Hl. unfold incr. apply get_set_same. rewrite Hlen. lia.
Qed.

(** The extra turn, in the arithmetic of the byte cells. *)
Lemma extra_turn_bytes (b : board_type) (i : Z) :
  wf_board b -> legal_move b i ->
  (snd (play_move b i) = true
   <-> landing_index b i = 6 \/ landing_index b i = 13)
  /\ (landing_index b i = 6 \/ landing_index b i = 13 ->
      fst (play_move b i) = incr (mid_board b i) (landing_index b i)
      /\ get (fst (play_move b i)) (landing_index b i)
         = uint8 (get (mid_board b i) (landing_index b i) + 1))
  /\ (~ (landing_index b i = 6 \/ landing_index b i = 13) ->
      snd (play_move b i) = false).
Proof.
  intros Hwf [Hpit Hne].
  pose proof (is_pit_range i Hpit) as Hi.
  rewrite play_move_unfold, land_snd.
  rewrite orb_true_iff, !Z.eqb_eq.
  split; [tauto |]. split.
  - intros Hl. rewrite (land_store _ _ _ Hl). cbn [fst]. split; [reflexivity |].
    apply get_incr_same.
    + apply mid_board_wf; assumption.
    + apply landing_index_range; assumption.
  - intros Hl. apply not_true_iff_false. rewrite orb_true_iff, !Z.eqb_eq.
    exact Hl.
Qed.

(** C2, as amended.  Extra turn exactness: for a legal move,
    [play_move] returns true if and only if the last seed lands on
    index 6 or on index 13; then that store is incremented by one
    modulo 256 ([++] on its byte) and nothing else changes; in every
    other case it returns false.  When the 14 cells sum to at most 255
    the byte does not wrap and the store gains exactly one seed. *)
Theorem play_move_extra_turn (b : board_type) (i : Z) :
  wf_board b -> legal_move b i ->
  (snd (play_move b i) = true
   <-> landing_index b i = 6 \/ landing_index b i = 13)
  /\ (landing_index b i = 6 \/ landing_index b i = 13 ->
      fst (play_move b i) = incr (mid_board b i) (landing_index b i)
      /\ get (fst (play_move b i)) (landing_index b i)
         = uint8 (get (mid_board b i) (landing_index b i) + 1))
  /\ (~ (landing_index b i = 6 \/ landing_index b i = 13) ->
      snd (play_move b i) = false)
  /\ (board_sum b <= 255 ->
      landing_index b i = 6 \/ landing_index b i = 13 ->
      get (fst (play_move b i)) (landing_index b i)
      = get (mid_board b i) (landing_index b i) + 1).
Proof.
  intros Hwf Hlegal.
  destruct (extra_turn_bytes b i Hwf Hlegal) as (Hiff & Hstore & Hother).
  split; [exact Hiff |]. split; [exact Hstore |]. split; [exact Hother |].
  intros Hsum Hl. destruct Hlegal as [Hpit Hne].
  pose proof (is_pit_range i Hpit) as Hi.
  destruct (Hstore Hl) as [_ ->].
  pose proof (mid_board_wf b i Hwf Hi) as Hmid.
  pose proof (mid_board_sum b i Hwf Hi Hsum) as Hmsum.
  pose proof (get_range b i Hwf) as Hr.
  pose proof (get_le_sum (mid_board b i) (landing_index b i) Hmid) as Hle.
  pose proof (get_range (mid_board b i) (landing_index b i) Hmid) as Hrl.
  apply uint8_small. lia.
Qed.

(** C2, as stated, fails when the store is full: the single seed of
    pit 5 lands in store 6, [play_move] returns true, and the store
    goes from 255 to 0 instead of being incremented by one. *)
Lemma store_increment_wraps :
  wf_board full_store_board
  /\ legal_move full_store_board 5
  /\ landing_index full_store_board 5 = 6
  /\ snd (play_move full_store_board 5) = true
  /\ get (mid_board full_store_board 5) 6 = 255
  /\ get (fst (play_move full_store_board 5)) 6 = 0.
Proof.
  split; [split; [reflexivity | repeat constructor; lia] |].
  split; [split; [left; lia | vm_compute; discriminate] |].
  repeat split; reflexivity.
Qed.

Lemma play_move_extra_turn_witness :
  wf_board start_board /\ legal_move start_board 2
  /\ landing_index start_board 2 = 6
  /\ snd (play_move start_board 2) = true
  /\ get (fst (play_move start_board 2)) 6
     = get (mid_board start_board 2) 6 + 1.
Proof.
  assert (Hwf : wf_board start_board)
    by (split; [reflexivity | repeat constructor; lia]).
  assert (Hlegal : legal_move start_board 2)
    by (split; [left; lia | vm_compute; discriminate]).
  assert (Hsum : board_sum start_board <= 255) by (vm_compute; discriminate).
  assert (Hl : landing_index start_board 2 = 6
               \/ landing_index start_board 2 = 13) by (left; reflexivity).
  destruct (play_move_extra_turn start_board 2 Hwf Hlegal)
    as (Hiff & _ & _ & Hexact).
  split; [exact Hwf |]. split; [exact Hlegal |]. split; [reflexivity |].
  split; [apply Hiff; exact Hl |].
  exact (Hexact Hsum Hl).
Defined.

(** The test of lines 104 and 108 decides [capture_condition]. *)
Lemma capture_test_spec (m : board_type) (l : Z) (mover : bool) :
  wf_board m -> 0 <= l < 14 -> l <> 6 -> l <> 13 ->
  (get m l =? 0) && ((get m (12 - l) >? 0) && Bool.eqb (l <=? 5) mover)
    = true
  <-> capture_condition m l mover.
Proof.
  intros Hwf Hl H6 H13. unfold capture_condition.
  pose proof (get_range m (12 - l) Hwf) as Hf.
  rewrite !andb_true_iff, Z.eqb_eq, Z.gtb_ltb, Z.ltb_lt, eqb_true_iff.
  destruct mover; destruct (Z.leb_spec l 5); intuition (try lia; congruence).
Qed.

Lemma uint8_succ_neq (x : Z) : 0 <= x < 256 -> uint8 (x + 1) <> x.
Proof.
  intros Hx Heq. destruct (Z.eq_dec x 255) as [-> | Hne].
  - vm_compute in Heq. discriminate.
  - rewrite uint8_small in Heq by lia. lia.
Qed.

(** Capture exactness, in the arithmetic of the byte cells. *)
Lemma capture_exact_bytes (b : board_type) (i : Z) :
  wf_board b -> legal_move b i ->
  landing_index b i <> 6 -> landing_index b i <> 13 ->
  let mid := mid_board b i in
  let l := landing_index b i in
  let mover := i <=? 5 in
  let after := fst (play_move b i) in
  (captured mid after l mover <-> capture_condition mid l mover)
  /\ (capture_condition mid l mover ->
      after = set (set mid (mover_store mover)
                       (get mid (mover_store mover) + (1 + get mid (12 - l))))
                  (12 - l) 0)
  /\ (~ capture_condition mid l mover ->
      after = incr mid l /\ get after l = uint8 (get mid l + 1))
  /\ snd (play_move b i) = false.
Proof.
  intros Hwf [Hpit Hne] H6 H13 mid l mover after.
  pose proof (is_pit_range i Hpit) as Hi.
  assert (Hmid : wf_board mid) by (apply mid_board_wf; assumption).
  assert (Hl : 0 <= l < 14) by (apply landing_index_range; assumption).
  pose proof (capture_test_spec mid l mover Hmid Hl H6 H13) as Htest.
  pose proof Hmid as [Hlen _].
  assert (Hs : 0 <= mover_store mover < 14 /\ mover_store mover <> l
               /\ mover_store mover <> 12 - l)
    by (unfold mover_store; destruct mover; lia).
  assert (Hafter : after = fst (land mid l mover))
    by (subst after mid l mover; rewrite play_move_unfold; reflexivity).
  assert (Hret : snd (play_move b i) = false).
  { rewrite play_move_unfold, land_snd. apply orb_false_iff.
    split; apply Z.eqb_neq; assumption. }
  assert (Hnostore : (l =? 6) || (l =? 13) = false).
  { apply orb_false_iff. split; apply Z.eqb_neq; assumption. }
  unfold land in Hafter. rewrite Hnostore in Hafter.
  fold (mover_store mover) in Hafter.
  destruct ((get mid l =? 0)
            && ((get mid (12 - l) >? 0) && Bool.eqb (l <=? 5) mover))
    eqn:Hc; cbn [fst] in Hafter.
  - assert (Hcond : capture_condition mid l mover)
      by (apply Htest; reflexivity).
    assert (Hcap : captured mid after l mover).
    { destruct Hcond as [Hzero _]. unfold captured. rewrite Hafter.
      split; [| split].
      - rewrite get_set_other by lia.
        rewrite get_set_same by (rewrite Hlen; lia).
        f_equal. lia.
      - rewrite get_set_same by (rewrite length_set, Hlen; lia).
        reflexivity.
      - rewrite !get_set_other by lia. exact Hzero. }
    split; [tauto |]. split; [intros _; exact Hafter |].
    split; [tauto | exact Hret].
  - assert (Hcond : ~ capture_condition mid l mover).
    { intros Hcond. apply Htest in Hcond. congruence. }
    assert (Hcap : ~ captured mid after l mover).
    { intros (Hstore & Hfacing & _). rewrite Hafter in Hstore, Hfacing.
      unfold incr in Hstore, Hfacing.
      rewrite get_set_other in Hstore, Hfacing by lia.
      rewrite Hfacing, Z.add_0_r in Hstore.
      symmetry in Hstore. revert Hstore.
      apply uint8_succ_neq, get_range. exact Hmid. }
    split; [tauto |]. split; [tauto |].
    split; [| exact Hret].
    intros _. split; [exact Hafter |].
    rewrite Hafter. apply get_incr_same; assumption.
Qed.

(** C1, as amended.  Capture exactness: for a legal move whose last
    seed lands outside the stores, the move captures (the mover's store
    becomes its value plus 1 plus the facing pit's count modulo 256,
    the facing pit is zeroed, the landing pit stays at zero) if and
    only if the landing pit was empty before the last seed arrived,
    lies on the mover's own side and faces a non-empty pit; in every
    other case the landing pit is incremented by one modulo 256 and
    nothing else changes; false is returned either way.  When the 14
    cells sum to at most 255 no byte wraps: the store gains exactly 1
    plus the facing pit's count, and the landing pit gains exactly one
    seed. *)
Theorem play_move_capture_exact (b : board_type) (i : Z) :
  wf_board b -> legal_move b i ->
  landing_index b i <> 6 -> landing_index b i <> 13 ->
  let mid := mid_board b i in
  let l := landing_index b i in
  let mover := i <=? 5 in
  let after := fst (play_move b i) in
  (captured mid after l mover <-> capture_condition mid l mover)
  /\ (capture_condition mid l mover ->
      after = set (set mid (mover_store mover)
                       (get mid (mover_store mover) + (1 + get mid (12 - l))))
                  (12 - l) 0)
  /\ (~ capture_condition mid l mover ->
      after = incr mid l /\ get after l = uint8 (get mid l + 1))
  /\ snd (play_move b i) = false
  /\ (board_sum b <= 255 ->
      (capture_condition mid l mover ->
       get after (mover_store mover)
       = get mid (mover_store mover) + 1 + get mid (12 - l))
      /\ (~ capture_condition mid l mover ->
          get after l = get mid l + 1)).
Proof.
  intros Hwf Hlegal H6 H13 mid l mover after.
  destruct (capture_exact_bytes b i Hwf Hlegal H6 H13)
    as (Hiff & Hcap & Hplain & Hret).
  fold mid l mover after in Hiff, Hcap, Hplain.
  split; [exact Hiff |]. split; [exact Hcap |]. split; [exact Hplain |].
  split; [exact Hret |].
  intros Hsum. destruct Hlegal as [Hpit Hne].
  pose proof (is_pit_range i Hpit) as Hi.
  assert (Hmid : wf_board mid) by (apply mid_board_wf; assumption).
  assert (Hl : 0 <= l < 14) by (apply landing_index_range; assumption).
  pose proof (mid_board_sum b i Hwf Hi Hsum) as Hmsum. fold mid in Hmsum.
  pose proof (get_range b i Hwf) as Hr.
  split.
  - intros Hcond. destruct (proj2 Hiff Hcond) as (-> & _ & _).
    assert (Hs : 0 <= mover_store mover < 14
                 /\ mover_store mover <> 12 - l)
      by (unfold mover_store; destruct mover; lia).
    pose proof (two_cells_le_sum mid (mover_store mover) (12 - l) Hmid
                  ltac:(lia) ltac:(lia) ltac:(lia)) as Htwo.
    pose proof (get_range mid (mover_store mover) Hmid).
    pose proof (get_range mid (12 - l) Hmid).
    apply uint8_small. lia.
  - intros Hcond. destruct (Hplain Hcond) as [_ ->].
    pose proof (get_le_sum mid l Hmid). pose proof (get_range mid l Hmid).
    apply uint8_small. lia.
Qed.

(** C1, as stated, fails when the store is close to full: the seed of
    pit 0 lands in the empty pit 1, which faces the 10 seeds of pit 11,
    so the move captures, and store 6 goes from 250 to 5 instead of
    gaining 11. *)
Lemma capture_gain_wraps :
  wf_board rich_store_board
  /\ legal_move rich_store_board 0
  /\ landing_index rich_store_board 0 = 1
  /\ capture_condition (mid_board rich_store_board 0) 1 true
  /\ get (mid_board rich_store_board 0) 6 = 250
  /\ get (mid_board rich_store_board 0) 11 = 10
  /\ get (fst (play_move rich_store_board 0)) 6 = 5.
Proof.
  split; [split; [reflexivity | repeat constructor; lia] |].
  split; [split; [left; lia | vm_compute; discriminate] |].
  split; [reflexivity |].
  split; [vm_compute; repeat split; discriminate |].
  repeat split; reflexivity.
Qed.

Lemma play_move_capture_exact_witness :
  wf_board capture_example /\ legal_move capture_example 0
  /\ landing_index capture_example 0 = 1
  /\ captured (mid_board capture_example 0)
              (fst (play_move capture_example 0)) 1 true
  /\ get (fst (play_move capture_example 0)) 6
     = get (mid_board capture_example 0) 6 + 1
       + get (mid_board capture_example 0) 11
  /\ play_move capture_example 0
     = ([0; 0; 0; 0; 0; 0; 4; 0; 0; 0; 0; 0; 0; 0], false).
Proof.
  assert (Hwf : wf_board capture_example)
    by (split; [reflexivity | repeat constructor; lia]).
  assert (Hlegal : legal_move capture_example 0)
    by (split; [left; lia | vm_compute; discriminate]).
  assert (H6 : landing_index capture_example 0 <> 6)
    by (vm_compute; discriminate).
  assert (H13 : landing_index capture_example 0 <> 13)
    by (vm_compute; discriminate).
  assert (Hsum : board_sum capture_example <= 255)
    by (vm_compute; discriminate).
  assert (Hcond : capture_condition (mid_board capture_example 0)
                    (landing_index capture_example 0) (0 <=? 5))
    by (vm_compute; repeat split; discriminate).
  destruct (play_move_capture_exact capture_example 0 Hwf Hlegal H6 H13)
    as (Hiff & _ & _ & _ & Hexact).
  split; [exact Hwf |]. split; [exact Hlegal |]. split; [reflexivity |].
  split; [exact (proj2 Hiff Hcond) |].
  split; [exact (proj1 (Hexact Hsum) Hcond) | reflexivity].
Defined.

(** C8.  Single-seed move: from a pit that holds exactly one seed the
    sowing loop does not run, so the board the last seed arrives on is
    the given board with the source emptied, the cursor is still on the
    source, and the move is the landing rule applied at
    [next_pit_index] of the source. *)
Theorem play_move_single_seed (b : board_type) (i : Z) :
  is_pit i -> get b i = 1 ->
  sown b i = (set b i 0, i)
  /\ play_move b i
     = land (set b i 0) (next_pit_index i (i <=? 5)) (i <=? 5).
Proof.
  intros _ Hone. unfold play_move, sown. rewrite Hone.
  change (Z.to_nat 1) with 1%nat. cbn [sow]. split; reflexivity.
Qed.

Lemma play_move_single_seed_witness :
  is_pit 0 /\ get capture_example 0 = 1
  /\ play_move capture_example 0
     = land (set capture_example 0 0) (next_pit_index 0 (0 <=? 5)) (0 <=? 5).
Proof.
  assert (Hpit : is_pit 0) by (left; lia).
  split; [exact Hpit |]. split; [reflexivity |].
  apply (play_move_single_seed capture_example 0 Hpit). reflexivity.
Defined.

(** A move from an empty pit runs as a move from the same pit holding
    one seed: the loop is skipped either way and the source is zeroed. *)
Lemma play_move_empty_as_single (b : board_type) (i : Z) :
  wf_board b -> 0 <= i < 14 -> get b i = 0 ->
  play_move b i = play_move (set b i 1) i.
Proof.
  intros Hwf Hi Hzero. pose proof Hwf as [Hlen _].
  unfold play_move.
  rewrite get_set_same by (rewrite Hlen; lia).
  rewrite set_set, Hzero. reflexivity.
Qed.

(** C10, as amended.  A move from an empty sowing pit returns and, on
    every board, gives the board and the answer of the move from the
    same pit holding one seed; when the 14 cells sum to at most 254 the
    sum of the cells grows by exactly 1. *)
Theorem play_move_empty_pit (b : board_type) (i : Z) :
  wf_board b -> is_pit i -> get b i = 0 ->
  play_move b i = play_move (set b i 1) i
  /\ (board_sum b <= 254 ->
      board_sum (fst (play_move b i)) = board_sum b + 1).
Proof.
  intros Hwf Hpit Hzero.
  pose proof (is_pit_range i Hpit) as Hi.
  split; [apply play_move_empty_as_single; assumption |].
  intros Hsum.
  pose proof (mid_board_sum b i Hwf Hi ltac:(lia)) as Hmid.
  rewrite Hzero in Hmid.
  rewrite play_move_unfold, land_sum.
  - lia.
  - apply mid_board_wf; assumption.
  - apply landing_index_range; assumption.
  - lia.
Qed.

Lemma play_move_empty_pit_witness :
  wf_board capture_example /\ is_pit 1 /\ get capture_example 1 = 0
  /\ board_sum capture_example <= 254
  /\ play_move capture_example 1 = play_move (set capture_example 1 1) 1
  /\ board_sum (fst (play_move capture_example 1))
     = board_sum capture_example + 1.
Proof.
  assert (Hwf : wf_board capture_example)
    by (split; [reflexivity | repeat constructor; lia]).
  assert (Hpit : is_pit 1) by (left; lia).
  assert (Hsum : board_sum capture_example <= 254)
    by (vm_compute; discriminate).
  destruct (play_move_empty_pit capture_example 1 Hwf Hpit eq_refl)
    as [Hsame Hgrow].
  split; [exact Hwf |]. split; [exact Hpit |]. split; [reflexivity |].
  split; [exact Hsum |]. split; [exact Hsame | exact (Hgrow Hsum)].
Defined.

(** C10, as stated, fails on a board of bytes that overflows: the move
    from the empty pit 2 lands on a pit that holds 255 and wraps it to
    0, so the sum of the cells falls from 255 to 0. *)
Lemma empty_pit_sum_fails_on_overflow :
  wf_board empty_source_board
  /\ is_pit 2
  /\ get empty_source_board 2 = 0
  /\ board_sum empty_source_board = 255
  /\ board_sum (fst (play_move empty_source_board 2)) = 0.
Proof.
  split; [split; [reflexivity | repeat constructor; lia] |].
  split; [left; lia |].
  repeat split; reflexivity.
Qed.

(** ** Search engine: the two loops *)

Section LoopFacts.

Variable child : board_type -> bool -> Z -> Z -> Z.
Variable board : board_type.

(** On empty pits the loops change nothing. *)
Lemma ac_loop_all_empty (pits : list Z) (best_eval best_move alpha beta : Z) :
  (forall i, In i pits -> get board i = 0) ->
  ac_loop child board pits best_eval best_move alpha beta
  = (best_eval, best_move).
Proof.
  induction pits as [|i rest IH]; intros Hempty; [reflexivity |].
  cbn [ac_loop]. rewrite (Hempty i) by (left; reflexivity).
  rewrite Z.eqb_refl. apply IH. intros j Hj. apply Hempty. right. exact Hj.
Qed.

Lemma opp_loop_all_empty (pits : list Z) (best_eval best_move alpha beta : Z) :
  (forall i, In i pits -> get board i = 0) ->
  opp_loop child board pits best_eval best_move alpha beta
  = (best_eval, best_move).
Proof.
  induction pits as [|i rest IH]; intros Hempty; [reflexivity |].
  cbn [opp_loop]. rewrite (Hempty i) by (left; reflexivity).
  rewrite Z.eqb_refl. apply IH. intros j Hj. apply Hempty. right. exact Hj.
Qed.

(** The move a loop ends with is the one it started with or a
    non-empty pit of its scan list. *)
Lemma ac_loop_move (pits : list Z) (best_eval best_move alpha beta : Z) :
  let m := snd (ac_loop child board pits best_eval best_move alpha beta) in
  m = best_move \/ (In m pits /\ get board m <> 0).
Proof.
  revert best_eval best_move alpha.
  induction pits as [|i rest IH]; intros best_eval best_move alpha;
    [left; reflexivity |].
  cbn [ac_loop]. destruct (Z.eqb_spec (get board i) 0) as [Hz | Hnz].
  - destruct (IH best_eval best_move alpha) as [H | [H1 H2]];
      [left; exact H | right; split; [right; exact H1 | exact H2]].
  - destruct (play_move board i) as [board_copy go_again].
    destruct (child board_copy go_again alpha beta >? best_eval);
      destruct (beta <=? Z.max alpha (child board_copy go_again alpha beta));
      cbn [snd];
      try (left; reflexivity);
      try (right; split; [left; reflexivity | exact Hnz]).
    + destruct (IH (child board_copy go_again alpha beta) i
                   (Z.max alpha (child board_copy go_again alpha beta)))
        as [H | [H1 H2]].
      * right. cbv zeta in H. rewrite H. split; [left; reflexivity | exact Hnz].
      * right. split; [right; exact H1 | exact H2].
    + destruct (IH best_eval best_move
                   (Z.max alpha (child board_copy go_again alpha beta)))
        as [H | [H1 H2]];
        [left; exact H | right; split; [right; exact H1 | exact H2]].
Qed.

Lemma opp_loop_move (pits : list Z) (best_eval best_move alpha beta : Z) :
  let m := snd (opp_loop child board pits best_eval best_move alpha beta) in
  m = best_move \/ (In m pits /\ get board m <> 0).
Proof.
  revert best_eval best_move beta.
  induction pits as [|i rest IH]; intros best_eval best_move beta;
    [left; reflexivity |].
  cbn [opp_loop]. destruct (Z.eqb_spec (get board i) 0) as [Hz | Hnz].
  - destruct (IH best_eval best_move beta) as [H | [H1 H2]];
      [left; exact H | right; split; [right; exact H1 | exact H2]].
  - destruct (play_move board i) as [board_copy go_again].
    destruct (child board_copy (negb go_again) alpha beta <? best_eval);
      destruct (Z.min beta (child board_copy (negb go_again) alpha beta)
                <=? alpha);
      cbn [snd];
      try (left; reflexivity);
      try (right; split; [left; reflexivity | exact Hnz]).
    + destruct (IH (child board_copy (negb go_again) alpha beta) i
                   (Z.min beta (child board_copy (negb go_again) alpha beta)))
        as [H | [H1 H2]].
      * right. cbv zeta in H. rewrite H. split; [left; reflexivity | exact Hnz].
      * right. split; [right; exact H1 | exact H2].
    + destruct (IH best_eval best_move
                   (Z.min beta (child board_copy (negb go_again) alpha beta)))
        as [H | [H1 H2]];
        [left; exact H | right; split; [right; exact H1 | exact H2]].
Qed.

End LoopFacts.

(** ** Search engine: [minimax] *)

Lemma minimax_succ (d : nat) (b : board_type) (turn : bool)
    (move_out : option Z) (alpha beta : Z) :
  minimax (S d) b turn move_out alpha beta
  = (if snd (scan d b turn alpha beta) =? -1 then sweep_eval b turn
     else fst (scan d b turn alpha beta),
     store_move move_out (snd (scan d b turn alpha beta))).
Proof.
  cbn [minimax]. unfold scan, minimax_eval.
  destruct turn.
  - destruct (ac_loop _ b AC_PITS (-99) (-1) alpha beta) as [e m].
    cbn [fst snd]. destruct (m =? -1); reflexivity.
  - destruct (opp_loop _ b OPP_PITS 99 (-1) alpha beta) as [e m].
    cbn [fst snd]. destruct (m =? -1); reflexivity.
Qed.

Lemma scan_all_empty (d : nat) (b : board_type) (turn : bool) (alpha beta : Z) :
  (forall i, In i (if turn then AC_PITS else OPP_PITS) -> get b i = 0) ->
  snd (scan d b turn alpha beta) = -1.
Proof.
  intros Hempty. unfold scan. destruct turn.
  - rewrite ac_loop_all_empty by exact Hempty. reflexivity.
  - rewrite opp_loop_all_empty by exact Hempty. reflexivity.
Qed.

Lemma sweep_eval_ac (b : board_type) :
  sweep_eval b true
  = get b 6 - (get b 13 + (get b 7 + get b 8 + get b 9 + get b 10
                           + get b 11 + get b 12)).
Proof. unfold sweep_eval, OPP_PITS. cbn [fold_left]. lia. Qed.

Lemma sweep_eval_opp (b : board_type) :
  sweep_eval b false
  = (get b 6 + (get b 0 + get b 1 + get b 2 + get b 3 + get b 4 + get b 5))
    - get b 13.
Proof. unfold sweep_eval, AC_PITS. cbn [fold_left]. lia. Qed.

(** C4.  Terminal correctness: when the six pits of the side to move are
    empty and the depth is at least 1, [minimax] writes the sentinel -1
    to the output slot and returns the store difference after the other
    side's pits are added to the other side's store: the opponent's
    pits are subtracted on AlphaCala's turn, AlphaCala's pits are added
    on the opponent's turn.  The board is a read-only argument of
    [minimax], which returns no board: the sweep is in the evaluation
    alone. *)
Theorem minimax_no_move (d : nat) (b : board_type) (turn : bool)
    (v alpha beta : Z) :
  (forall i, In i (if turn then AC_PITS else OPP_PITS) -> get b i = 0) ->
  snd (minimax (S d) b turn (Some v) alpha beta) = Some (-1)
  /\ fst (minimax (S d) b turn (Some v) alpha beta)
     = fst (minimax (S d) b turn None alpha beta)
  /\ fst (minimax (S d) b turn (Some v) alpha beta)
     = if turn
       then get b 6 - (get b 13 + (get b 7 + get b 8 + get b 9 + get b 10
                                   + get b 11 + get b 12))
       else (get b 6 + (get b 0 + get b 1 + get b 2 + get b 3 + get b 4
                        + get b 5))
            - get b 13.
Proof.
  intros Hempty. rewrite !minimax_succ. cbn [fst snd store_move].
  rewrite (scan_all_empty d b turn alpha beta Hempty).
  split; [reflexivity |]. split; [reflexivity |].
  change (-1 =? -1) with true. cbv iota.
  destruct turn; [apply sweep_eval_ac | apply sweep_eval_opp].
Qed.

Lemma minimax_no_move_witness :
  (forall i, In i AC_PITS -> get ac_swept_board i = 0)
  /\ minimax 3 ac_swept_board true (Some 0) (-99) 99 = (-2, Some (-1)).
Proof.
  assert (Hempty : forall i, In i (if true then AC_PITS else OPP_PITS) ->
                             get ac_swept_board i = 0).
  { intros i Hi. cbn in Hi.
    repeat (destruct Hi as [<- | Hi]; [reflexivity |]). contradiction. }
  split; [exact Hempty |].
  destruct (minimax_no_move 2 ac_swept_board true 0 (-99) 99 Hempty)
    as (Hmove & _ & Heval).
  rewrite (surjective_pairing (minimax 3 ac_swept_board true (Some 0)
                                       (-99) 99)).
  rewrite Hmove, Heval. reflexivity.
Defined.

(** C6, on the code.  At depth 0 [minimax] returns the store difference
    and returns before the output slot is written: the slot keeps what
    it held, so the sentinel -1 is not reported. *)
Theorem minimax_depth0_keeps_move_out (b : board_type) (turn : bool)
    (v alpha beta : Z) :
  minimax 0 b turn (Some v) alpha beta = (get b 6 - get b 13, Some v).
Proof. reflexivity. Qed.

Example minimax_depth0_start :
  minimax 0 start_board true (Some 5) (-99) 99 = (0, Some 5).
Proof. reflexivity. Qed.

Lemma reports_succ (d : nat) (b : board_type) (turn : bool)
    (alpha beta m : Z) :
  reports (S d) b turn alpha beta m <-> snd (scan d b turn alpha beta) = m.
Proof.
  unfold reports. split.
  - intros H. specialize (H 0). rewrite minimax_succ in H. cbn in H.
    congruence.
  - intros H v. rewrite minimax_succ. cbn [snd store_move]. congruence.
Qed.

Lemma reports_zero (b : board_type) (turn : bool) (alpha beta m : Z) :
  ~ reports 0 b turn alpha beta m.
Proof.
  intros H. specialize (H (m + 1)). cbn in H.
  assert (m + 1 = m) by congruence. lia.
Qed.

(** C9.  A best move that [minimax] reports and that is not the
    sentinel -1 is a pit of the side to move, 0..5 on AlphaCala's turn
    and 7..12 on the opponent's, and that pit is not empty on the given
    board: it is a legal move for [play_move]. *)
Theorem minimax_reports_legal (depth : nat) (b : board_type) (turn : bool)
    (alpha beta m : Z) :
  reports depth b turn alpha beta m -> m <> -1 ->
  (if turn then 0 <= m <= 5 else 7 <= m <= 12)
  /\ get b m <> 0
  /\ legal_move b m.
Proof.
  intros Hrep Hm. destruct depth as [|d];
    [exfalso; exact (reports_zero _ _ _ _ _ Hrep) |].
  apply reports_succ in Hrep. unfold scan in Hrep.
  assert (Hin : In m (if turn then AC_PITS else OPP_PITS) /\ get b m <> 0).
  { destruct turn.
    - pose proof (ac_loop_move (minimax_eval d) b AC_PITS (-99) (-1) alpha beta)
        as Hmove.
      cbv zeta in Hmove. rewrite Hrep in Hmove.
      destruct Hmove as [H | H]; [contradiction | exact H].
    - pose proof (opp_loop_move (minimax_eval d) b OPP_PITS 99 (-1) alpha beta)
        as Hmove.
      cbv zeta in Hmove. rewrite Hrep in Hmove.
      destruct Hmove as [H | H]; [contradiction | exact H]. }
  destruct Hin as [Hin Hne].
  assert (Hside : if turn then 0 <= m <= 5 else 7 <= m <= 12).
  { destruct turn; cbn in Hin;
      repeat (destruct Hin as [<- | Hin]; [lia |]); contradiction. }
  split; [exact Hside |]. split; [exact Hne |].
  split; [| exact Hne]. unfold is_pit. destruct turn; lia.
Qed.

Lemma minimax_reports_legal_witness :
  reports 2 start_board true (-99) 99 2 /\ 2 <> -1
  /\ 0 <= 2 <= 5 /\ get start_board 2 <> 0 /\ legal_move start_board 2.
Proof.
  assert (Hrep : reports 2 start_board true (-99) 99 2)
    by (intros v; vm_compute; reflexivity).
  assert (Hne : 2 <> -1) by discriminate.
  split; [exact Hrep |]. split; [exact Hne |].
  exact (minimax_reports_legal 2 start_board true (-99) 99 2 Hrep Hne).
Defined.

(** ** Search engine: the order of the scan *)

Section TraceFacts.

Variable child : board_type -> bool -> Z -> Z -> Z.
Variable board : board_type.

(** The loop keeps the first of the best children of its trace, or,
    when no child beats the score it started with, its first state. *)
Lemma ac_loop_trace (pits : list Z) (best_eval best_move alpha beta : Z) :
  let r := ac_loop child board pits best_eval best_move alpha beta in
  let t := ac_trace child board pits alpha beta in
  (r = (best_eval, best_move) /\ forall p, In p t -> snd p <= best_eval)
  \/ (exists pre post,
        t = pre ++ (snd r, fst r) :: post
        /\ best_eval < fst r
        /\ (forall p, In p pre -> snd p < fst r)
        /\ (forall p, In p post -> snd p <= fst r)).
Proof.
  revert best_eval best_move alpha.
  induction pits as [|i rest IH]; intros best_eval best_move alpha;
    cbn [ac_loop ac_trace].
  { left. split; [reflexivity | intros p []]. }
  destruct (get board i =? 0); [apply IH |].
  destruct (play_move board i) as [board_copy go_again].
  set (e := child board_copy go_again alpha beta).
  destruct (Z.gtb_spec e best_eval) as [Hgt | Hle];
    destruct (beta <=? Z.max alpha e).
  - right. exists [], []. cbn [fst snd app].
    split; [reflexivity |]. split; [lia |]. split; intros p [].
  - destruct (IH e i (Z.max alpha e))
    as [[Hr Hall] | (pre & post & Ht & Hlt & Hpre & Hpost)];
      cbv zeta in *.
    + right. exists [], (ac_trace child board rest (Z.max alpha e) beta).
      rewrite Hr. cbn [fst snd app].
      split; [reflexivity |]. split; [lia |]. split; [intros p [] | exact Hall].
    + right. exists ((i, e) :: pre), post. rewrite Ht. cbn [app].
      split; [reflexivity |]. split; [lia |]. split; [| exact Hpost].
      intros p [<- | Hp]; [cbn [snd]; lia | apply Hpre; exact Hp].
  - left. split; [reflexivity |].
    intros p [<- | []]. cbn [snd]. lia.
  - destruct (IH best_eval best_move (Z.max alpha e))
      as [[Hr Hall] | (pre & post & Ht & Hlt & Hpre & Hpost)];
      cbv zeta in *.
    + left. split; [exact Hr |].
      intros p [<- | Hp]; [cbn [snd]; lia | apply Hall; exact Hp].
    + right. exists ((i, e) :: pre), post. rewrite Ht. cbn [app].
      split; [reflexivity |]. split; [lia |]. split; [| exact Hpost].
      intros p [<- | Hp]; [cbn [snd]; lia | apply Hpre; exact Hp].
Qed.

Lemma opp_loop_trace (pits : list Z) (best_eval best_move alpha beta : Z) :
  let r := opp_loop child board pits best_eval best_move alpha beta in
  let t := opp_trace child board pits alpha beta in
  (r = (best_eval, best_move) /\ forall p, In p t -> best_eval <= snd p)
  \/ (exists pre post,
        t = pre ++ (snd r, fst r) :: post
        /\ fst r < best_eval
        /\ (forall p, In p pre -> fst r < snd p)
        /\ (forall p, In p post -> fst r <= snd p)).
Proof.
  revert best_eval best_move beta.
  induction pits as [|i rest IH]; intros best_eval best_move beta;
    cbn [opp_loop opp_trace].
  { left. split; [reflexivity | intros p []]. }
  destruct (get board i =? 0); [apply IH |].
  destruct (play_move board i) as [board_copy go_again].
  set (e := child board_copy (negb go_again) alpha beta).
  destruct (Z.ltb_spec e best_eval) as [Hlt | Hge];
    destruct (Z.min beta e <=? alpha).
  - right. exists [], []. cbn [fst snd app].
    split; [reflexivity |]. split; [lia |]. split; intros p [].
  - destruct (IH e i (Z.min beta e))
      as [[Hr Hall] | (pre & post & Ht & Hlt' & Hpre & Hpost)];
      cbv zeta in *.
    + right. exists [], (opp_trace child board rest alpha (Z.min beta e)).
      rewrite Hr. cbn [fst snd app].
      split; [reflexivity |]. split; [lia |]. split; [intros p [] | exact Hall].
    + right. exists ((i, e) :: pre), post. rewrite Ht. cbn [app].
      split; [reflexivity |]. split; [lia |]. split; [| exact Hpost].
      intros p [<- | Hp]; [cbn [snd]; lia | apply Hpre; exact Hp].
  - left. split; [reflexivity |].
    intros p [<- | []]. cbn [snd]. lia.
  - destruct (IH best_eval best_move (Z.min beta e))
      as [[Hr Hall] | (pre & post & Ht & Hlt' & Hpre & Hpost)];
      cbv zeta in *.
    + left. split; [exact Hr |].
      intros p [<- | Hp]; [cbn [snd]; lia | apply Hall; exact Hp].
    + right. exists ((i, e) :: pre), post. rewrite Ht. cbn [app].
      split; [reflexivity |]. split; [lia |]. split; [| exact Hpost].
      intros p [<- | Hp]; [cbn [snd]; lia | apply Hpre; exact Hp].
Qed.

(** The pits of a trace are the non-empty pits of the scan list, in
    the order of the list, up to the last one evaluated. *)
Lemma ac_trace_pits (pits : list Z) (alpha beta : Z) :
  exists k, map fst (ac_trace child board pits alpha beta)
            = firstn k (legal_pits board pits).
Proof.
  revert alpha. induction pits as [|i rest IH]; intros alpha;
    cbn [ac_trace legal_pits filter].
  { exists 0%nat. reflexivity. }
  destruct (get board i =? 0); cbn [negb]; [apply IH |].
  destruct (play_move board i) as [board_copy go_again].
  destruct (beta <=? Z.max alpha (child board_copy go_again alpha beta)).
  - exists 1%nat. reflexivity.
  - destruct (IH (Z.max alpha (child board_copy go_again alpha beta)))
      as [k Hk].
    exists (S k). cbn [map fst firstn]. rewrite Hk. reflexivity.
Qed.

Lemma opp_trace_pits (pits : list Z) (alpha beta : Z) :
  exists k, map fst (opp_trace child board pits alpha beta)
            = firstn k (legal_pits board pits).
Proof.
  revert beta. induction pits as [|i rest IH]; intros beta;
    cbn [opp_trace legal_pits filter].
  { exists 0%nat. reflexivity. }
  destruct (get board i =? 0); cbn [negb]; [apply IH |].
  destruct (play_move board i) as [board_copy go_again].
  destruct (Z.min beta (child board_copy (negb go_again) alpha beta)
            <=? alpha).
  - exists 1%nat. reflexivity.
  - destruct (IH (Z.min beta (child board_copy (negb go_again) alpha beta)))
      as [k Hk].
    exists (S k). cbn [map fst firstn]. rewrite Hk. reflexivity.
Qed.

End TraceFacts.

(** C5, as amended.  Determinism and tie-break: the move [minimax]
    reports for a board, a turn and a depth is unique, and when it is
    not the sentinel it is the first of the best children of the scan: the children are
    evaluated in the order of [AC_PITS] (5,4,3,2,1,0) or of [OPP_PITS]
    (12,11,10,9,8,7), every child evaluated before the reported one has
    a strictly worse score, and no child evaluated after it has a
    strictly better one, so of two children with equal best scores the
    one scanned first is reported.  Its score is the evaluation that is
    returned. *)
Theorem minimax_tie_break (depth : nat) (b : board_type) (turn : bool)
    (alpha beta m : Z) :
  reports depth b turn alpha beta m -> m <> -1 ->
  (forall m', reports depth b turn alpha beta m' -> m' = m)
  /\ exists d pre e post k,
       depth = S d
       /\ scan_trace d b turn alpha beta = pre ++ (m, e) :: post
       /\ map fst (scan_trace d b turn alpha beta)
          = firstn k (legal_pits b (if turn then AC_PITS else OPP_PITS))
       /\ (forall p, In p pre -> better turn e (snd p))
       /\ (forall p, In p post -> ~ better turn (snd p) e)
       /\ fst (minimax depth b turn None alpha beta) = e.
Proof.
  intros Hrep Hm. split.
  { intros m' Hrep'. specialize (Hrep 0). specialize (Hrep' 0). congruence. }
  destruct depth as [|d]; [exfalso; exact (reports_zero _ _ _ _ _ Hrep) |].
  apply reports_succ in Hrep.
  assert (Heval : fst (minimax (S d) b turn None alpha beta)
                  = fst (scan d b turn alpha beta)).
  { rewrite minimax_succ. cbn [fst]. rewrite Hrep.
    destruct (Z.eqb_spec m (-1)); [contradiction | reflexivity]. }
  rewrite Heval. clear Heval.
  unfold scan in Hrep. unfold scan, scan_trace, better. destruct turn.
  - destruct (ac_trace_pits (minimax_eval d) b AC_PITS alpha beta) as [k Hk].
    destruct (ac_loop_trace (minimax_eval d) b AC_PITS (-99) (-1) alpha beta)
      as [[Hr _] | (pre & post & Ht & _ & Hpre & Hpost)]; cbv zeta in *.
    + rewrite Hr in Hrep. cbn in Hrep. congruence.
    + rewrite Hrep in Ht.
      exists d, pre, (fst (ac_loop (minimax_eval d) b AC_PITS (-99) (-1)
                                    alpha beta)), post, k.
      split; [reflexivity |]. split; [exact Ht |]. split; [exact Hk |].
      split; [exact Hpre |]. split; [| reflexivity].
      intros p Hp. specialize (Hpost p Hp). lia.
  - destruct (opp_trace_pits (minimax_eval d) b OPP_PITS alpha beta) as [k Hk].
    destruct (opp_loop_trace (minimax_eval d) b OPP_PITS 99 (-1) alpha beta)
      as [[Hr _] | (pre & post & Ht & _ & Hpre & Hpost)]; cbv zeta in *.
    + rewrite Hr in Hrep. cbn in Hrep. congruence.
    + rewrite Hrep in Ht.
      exists d, pre, (fst (opp_loop (minimax_eval d) b OPP_PITS 99 (-1)
                                     alpha beta)), post, k.
      split; [reflexivity |]. split; [exact Ht |]. split; [exact Hk |].
      split; [exact Hpre |]. split; [| reflexivity].
      intros p Hp. specialize (Hpost p Hp). lia.
Qed.

(** C5, as stated, fails when no child beats the initial best score:
    with 99 seeds in the opponent's store, pits 4 and 3 are both legal
    and tie at the best score -99, which is not strictly better than
    the -99 the loop starts with, so [minimax] reports the sentinel -1
    and not pit 4, the one scanned first. *)
Lemma tie_at_initial_best_reports_sentinel :
  wf_board far_behind_board
  /\ legal_move far_behind_board 4
  /\ legal_move far_behind_board 3
  /\ scan_trace 0 far_behind_board true (-99) 99 = [(4, -99); (3, -99)]
  /\ reports 1 far_behind_board true (-99) 99 (-1)
  /\ ~ reports 1 far_behind_board true (-99) 99 4.
Proof.
  split; [split; [reflexivity | repeat constructor; lia] |].
  split; [split; [left; lia | vm_compute; discriminate] |].
  split; [split; [left; lia | vm_compute; discriminate] |].
  split; [reflexivity |].
  split; [intros v; reflexivity |].
  intros H. specialize (H 0). vm_compute in H. discriminate H.
Qed.

Lemma minimax_tie_break_witness :
  reports 3 start_board false (-99) 99 9 /\ 9 <> -1
  /\ scan_trace 2 start_board false (-99) 99
     = [(12, 1); (11, 1); (10, 1)] ++ (9, -1) :: [(8, 0); (7, 0)]
  /\ exists d pre e post k,
       3%nat = S d
       /\ scan_trace d start_board false (-99) 99 = pre ++ (9, e) :: post
       /\ map fst (scan_trace d start_board false (-99) 99)
          = firstn k (legal_pits start_board OPP_PITS)
       /\ (forall p, In p pre -> better false e (snd p))
       /\ (forall p, In p post -> ~ better false (snd p) e)
       /\ fst (minimax 3 start_board false None (-99) 99) = e.
Proof.
  assert (Hrep : reports 3 start_board false (-99) 99 9)
    by (intros v; vm_compute; reflexivity).
  assert (Hne : 9 <> -1) by discriminate.
  split; [exact Hrep |]. split; [exact Hne |].
  split; [vm_compute; reflexivity |].
  exact (proj2 (minimax_tie_break 3 start_board false (-99) 99 9 Hrep Hne)).
Defined.

(** ** Alpha-beta against plain minimax *)

Lemma small_board_play_move (b : board_type) (i : Z) :
  small_board b -> is_pit i -> get b i <> 0 ->
  small_board (fst (play_move b i)).
Proof.
  intros [Hwf Hsum] Hpit Hne. pose proof (is_pit_range i Hpit) as Hi. split.
  - apply play_move_wf; assumption.
  - rewrite play_move_sum by (auto; lia). exact Hsum.
Qed.

Lemma fold_max_ge_init (l : list Z) (T : Z) : T <= fold_left Z.max l T.
Proof.
  revert T. induction l as [|x l IH]; intros T; cbn [fold_left]; [lia |].
  specialize (IH (Z.max T x)). lia.
Qed.

Lemma fold_max_le (l : list Z) (T M : Z) :
  T <= M -> Forall (fun x => x <= M) l -> fold_left Z.max l T <= M.
Proof.
  intros HT Hl. revert T HT.
  induction Hl as [|x l Hx Hl IH]; intros T HT; cbn [fold_left]; [lia |].
  apply IH. lia.
Qed.

Lemma fold_min_le_init (l : list Z) (T : Z) : fold_left Z.min l T <= T.
Proof.
  revert T. induction l as [|x l IH]; intros T; cbn [fold_left]; [lia |].
  specialize (IH (Z.min T x)). lia.
Qed.

Lemma fold_min_ge (l : list Z) (T M : Z) :
  M <= T -> Forall (fun x => M <= x) l -> M <= fold_left Z.min l T.
Proof.
  intros HT Hl. revert T HT.
  induction Hl as [|x l Hx Hl IH]; intros T HT; cbn [fold_left]; [lia |].
  apply IH. lia.
Qed.

Lemma legal_pits_nil (b : board_type) (pits : list Z) :
  legal_pits b pits = [] -> forall i, In i pits -> get b i = 0.
Proof.
  unfold legal_pits. induction pits as [|j rest IH]; intros Hnil i Hi;
    [destruct Hi |].
  cbn [filter] in Hnil. destruct (Z.eqb_spec (get b j) 0) as [Hz | Hnz];
    cbn [negb] in Hnil; [| discriminate].
  destruct Hi as [<- | Hi]; [exact Hz | apply IH; assumption].
Qed.

Section AlphaBeta.

(** The search one ply below and the plain value it is compared with. *)
Variable child : board_type -> bool -> Z -> Z -> Z.
Variable value : board_type -> bool -> Z.
Variable b : board_type.

Hypothesis b_small : small_board b.
Hypothesis child_sound : forall b' turn alpha beta,
  small_board b' -> -99 <= alpha -> alpha < beta -> beta <= 99 ->
  window_sound alpha beta (child b' turn alpha beta) (value b' turn).

Lemma value_bounds (i : Z) (flip : bool) :
  is_pit i -> get b i <> 0 ->
  -48 <= value (fst (play_move b i)) (xorb flip (snd (play_move b i))) <= 48.
Proof.
  intros Hpit Hne.
  pose proof (small_board_play_move b i b_small Hpit Hne) as Hsmall.
  destruct (child_sound (fst (play_move b i))
              (xorb flip (snd (play_move b i))) (-99) 99 Hsmall)
    as (_ & Hv & _); lia.
Qed.

Lemma ac_values_cons (i : Z) (rest : list Z) :
  get b i <> 0 ->
  ac_values value b (i :: rest)
  = value (fst (play_move b i)) (snd (play_move b i))
      :: ac_values value b rest.
Proof.
  intros Hne. unfold ac_values, legal_pits. cbn [filter].
  destruct (Z.eqb_spec (get b i) 0); [contradiction |].
  cbn [negb map]. destruct (play_move b i). reflexivity.
Qed.

Lemma opp_values_cons (i : Z) (rest : list Z) :
  get b i <> 0 ->
  opp_values value b (i :: rest)
  = value (fst (play_move b i)) (negb (snd (play_move b i)))
      :: opp_values value b rest.
Proof.
  intros Hne. unfold opp_values, legal_pits. cbn [filter].
  destruct (Z.eqb_spec (get b i) 0); [contradiction |].
  cbn [negb map]. destruct (play_move b i). reflexivity.
Qed.

Lemma values_skip (i : Z) (rest : list Z) :
  get b i = 0 ->
  ac_values value b (i :: rest) = ac_values value b rest
  /\ opp_values value b (i :: rest) = opp_values value b rest
  /\ legal_pits b (i :: rest) = legal_pits b rest.
Proof.
  intros Hz. unfold ac_values, opp_values, legal_pits. cbn [filter].
  rewrite Hz. cbn. auto.
Qed.

Lemma ac_values_bounded (pits : list Z) :
  Forall is_pit pits ->
  Forall (fun x => -48 <= x <= 48) (ac_values value b pits).
Proof.
  induction 1 as [|i rest Hi Hrest IH]; [constructor |].
  destruct (Z.eq_dec (get b i) 0) as [Hz | Hnz].
  - destruct (values_skip i rest Hz) as (-> & _). exact IH.
  - rewrite ac_values_cons by exact Hnz. constructor; [| exact IH].
    exact (value_bounds i false Hi Hnz).
Qed.

Lemma opp_values_bounded (pits : list Z) :
  Forall is_pit pits ->
  Forall (fun x => -48 <= x <= 48) (opp_values value b pits).
Proof.
  induction 1 as [|i rest Hi Hrest IH]; [constructor |].
  destruct (Z.eq_dec (get b i) 0) as [Hz | Hnz].
  - destruct (values_skip i rest Hz) as (_ & -> & _). exact IH.
  - rewrite opp_values_cons by exact Hnz. constructor; [| exact IH].
    exact (value_bounds i true Hi Hnz).
Qed.

Variables alpha0 beta0 : Z.
Hypothesis alpha0_low : -99 <= alpha0.
Hypothesis beta0_high : beta0 <= 99.

(** The invariant of the loop over [AC_PITS]: [alpha] is the larger of
    the entry value [alpha0] and the best score so far, which is a
    sound answer for the children seen so far, of plain value [T]. *)
Lemma ac_loop_sound (pits : list Z) :
  Forall is_pit pits ->
  forall best_eval best_move alpha T,
  alpha = Z.max alpha0 best_eval -> alpha < beta0 ->
  (best_eval = -99 /\ best_move = -1 /\ T = -99)
  \/ (-48 <= best_eval <= 48 /\ best_move <> -1 /\ -48 <= T <= 48) ->
  (best_eval <= alpha0 -> T <= best_eval) ->
  (alpha0 < best_eval -> best_eval = T) ->
  let r := ac_loop child b pits best_eval best_move alpha beta0 in
  let Tf := fold_left Z.max (ac_values value b pits) T in
  (r = (best_eval, best_move) /\ best_move = -1 /\ legal_pits b pits = [])
  \/ (snd r <> -1 /\ window_sound alpha0 beta0 (fst r) Tf).
Proof.
  induction 1 as [|i rest Hi Hrest IH];
    intros best_eval best_move alpha T Halpha Hlt Hseen Hlow Hin.
  { cbn. unfold window_sound.
    destruct Hseen as [(? & ? & ?) | (? & ? & ?)];
      [left; auto | right; split; [assumption | lia]]. }
  destruct (Z.eq_dec (get b i) 0) as [Hz | Hnz].
  { destruct (values_skip i rest Hz) as (-> & _ & ->).
    cbn [ac_loop]. rewrite Hz, Z.eqb_refl.
    apply IH; assumption. }
  cbn [ac_loop]. destruct (Z.eqb_spec (get b i) 0); [contradiction |].
  rewrite ac_values_cons by exact Hnz. cbn [fold_left].
  pose proof (small_board_play_move b i b_small Hi Hnz) as Hsmall.
  pose proof (ac_values_bounded rest Hrest) as Hbounded.
  destruct (play_move b i) as [board_copy go_again]. cbn [fst snd] in *.
  pose proof (child_sound board_copy go_again alpha beta0 Hsmall
                ltac:(lia) Hlt beta0_high) as (Hr & Ht & Hfl & Hfh & Hex).
  set (r0 := child board_copy go_again alpha beta0) in *.
  set (t0 := value board_copy go_again) in *.
  assert (Hipit : i <> -1) by (unfold is_pit in Hi; lia).
  pose proof (fold_max_ge_init (ac_values value b rest) (Z.max T t0)) as Hge.
  assert (Hle : fold_left Z.max (ac_values value b rest) (Z.max T t0) <= 48).
  { apply fold_max_le; [lia |].
    eapply Forall_impl; [| exact Hbounded]. cbv beta. intros; lia. }
  destruct (Z.gtb_spec r0 best_eval) as [Hgt | Hngt];
    destruct (Z.leb_spec beta0 (Z.max alpha r0)) as [Hbreak | Hcont].
  - right. cbn [fst snd]. split; [exact Hipit |]. unfold window_sound. lia.
  - destruct (IH r0 i (Z.max alpha r0) (Z.max T t0))
      as [(_ & Hbad & _) | Hok]; try lia.
    right. exact Hok.
  - exfalso. lia.
  - destruct (IH best_eval best_move (Z.max alpha r0) (Z.max T t0))
      as [(_ & Hbad & _) | Hok]; try lia.
    right. exact Hok.
Qed.

(** The symmetric invariant of the loop over [OPP_PITS]. *)
Lemma opp_loop_sound (pits : list Z) :
  Forall is_pit pits ->
  forall best_eval best_move beta T,
  beta = Z.min beta0 best_eval -> alpha0 < beta ->
  (best_eval = 99 /\ best_move = -1 /\ T = 99)
  \/ (-48 <= best_eval <= 48 /\ best_move <> -1 /\ -48 <= T <= 48) ->
  (beta0 <= best_eval -> best_eval <= T) ->
  (best_eval < beta0 -> best_eval = T) ->
  let r := opp_loop child b pits best_eval best_move alpha0 beta in
  let Tf := fold_left Z.min (opp_values value b pits) T in
  (r = (best_eval, best_move) /\ best_move = -1 /\ legal_pits b pits = [])
  \/ (snd r <> -1 /\ window_sound alpha0 beta0 (fst r) Tf).
Proof.
  induction 1 as [|i rest Hi Hrest IH];
    intros best_eval best_move beta T Hbeta Hlt Hseen Hhigh Hin.
  { cbn. unfold window_sound.
    destruct Hseen as [(? & ? & ?) | (? & ? & ?)];
      [left; auto | right; split; [assumption | lia]]. }
  destruct (Z.eq_dec (get b i) 0) as [Hz | Hnz].
  { destruct (values_skip i rest Hz) as (_ & -> & ->).
    cbn [opp_loop]. rewrite Hz, Z.eqb_refl.
    apply IH; assumption. }
  cbn [opp_loop]. destruct (Z.eqb_spec (get b i) 0); [contradiction |].
  rewrite opp_values_cons by exact Hnz. cbn [fold_left].
  pose proof (small_board_play_move b i b_small Hi Hnz) as Hsmall.
  pose proof (opp_values_bounded rest Hrest) as Hbounded.
  destruct (play_move b i) as [board_copy go_again]. cbn [fst snd] in *.
  pose proof (child_sound board_copy (negb go_again) alpha0 beta Hsmall
                alpha0_low Hlt ltac:(lia)) as (Hr & Ht & Hfl & Hfh & Hex).
  set (r0 := child board_copy (negb go_again) alpha0 beta) in *.
  set (t0 := value board_copy (negb go_again)) in *.
  assert (Hipit : i <> -1) by (unfold is_pit in Hi; lia).
  pose proof (fold_min_le_init (opp_values value b rest) (Z.min T t0)) as Hge.
  assert (Hle : -48 <= fold_left Z.min (opp_values value b rest) (Z.min T t0)).
  { apply fold_min_ge; [lia |].
    eapply Forall_impl; [| exact Hbounded]. cbv beta. intros; lia. }
  destruct (Z.ltb_spec r0 best_eval) as [Hgt | Hngt];
    destruct (Z.leb_spec (Z.min beta r0) alpha0) as [Hbreak | Hcont].
  - right. cbn [fst snd]. split; [exact Hipit |]. unfold window_sound. lia.
  - destruct (IH r0 i (Z.min beta r0) (Z.min T t0))
      as [(_ & Hbad & _) | Hok]; try lia.
    right. exact Hok.
  - exfalso. lia.
  - destruct (IH best_eval best_move (Z.min beta r0) (Z.min T t0))
      as [(_ & Hbad & _) | Hok]; try lia.
    right. exact Hok.
Qed.

End AlphaBeta.

(** A well-formed board, cell by cell. *)
Lemma wf_board_cells (b : board_type) :
  wf_board b ->
  exists c0 c1 c2 c3 c4 c5 c6 c7 c8 c9 c10 c11 c12 c13,
    b = [c0; c1; c2; c3; c4; c5; c6; c7; c8; c9; c10; c11; c12; c13]
    /\ Forall (fun c => 0 <= c < 256) b.
Proof.
  intros [Hlen Hall].
  do 14 (destruct b as [|? b]; [discriminate Hlen |]).
  destruct b; [| discriminate Hlen].
  repeat eexists. exact Hall.
Qed.

Ltac board_cells b H :=
  let Hall := fresh "Hall" in
  destruct (wf_board_cells b H)
    as (?c & ?c & ?c & ?c & ?c & ?c & ?c & ?c & ?c & ?c & ?c & ?c & ?c & ?c
        & -> & Hall);
  repeat match goal with
         | Hf : Forall _ (_ :: _) |- _ =>
             let Hh := fresh "Hcell" in
             let Ht := fresh "Hall" in
             apply Forall_cons_iff in Hf; destruct Hf as [Hh Ht]
         end.

Ltac eval_cells :=
  repeat match goal with
         | |- context [get ?l ?k] =>
             let v := eval cbv in (get l k) in change (get l k) with v
         | H : context [board_sum ?l] |- _ =>
             let v := eval cbv [board_sum fold_right] in (board_sum l) in
             change (board_sum l) with v in H
         end.

Lemma store_diff_bounds (b : board_type) :
  small_board b -> -48 <= get b 6 - get b 13 <= 48.
Proof.
  intros [Hwf Hsum]. board_cells b Hwf. eval_cells. lia.
Qed.

Lemma sweep_eval_bounds (b : board_type) (turn : bool) :
  small_board b -> -48 <= sweep_eval b turn <= 48.
Proof.
  intros [Hwf Hsum].
  destruct turn; [rewrite sweep_eval_ac | rewrite sweep_eval_opp];
    board_cells b Hwf; eval_cells; lia.
Qed.

Lemma minimax_fst_move_out (depth : nat) (b : board_type) (turn : bool)
    (move_out : option Z) (alpha beta : Z) :
  fst (minimax depth b turn move_out alpha beta)
  = minimax_eval depth b turn alpha beta.
Proof.
  unfold minimax_eval. destruct depth; [reflexivity |].
  rewrite !minimax_succ. reflexivity.
Qed.

Lemma minimax_eval_succ (d : nat) (b : board_type) (turn : bool)
    (alpha beta : Z) :
  minimax_eval (S d) b turn alpha beta
  = if snd (scan d b turn alpha beta) =? -1 then sweep_eval b turn
    else fst (scan d b turn alpha beta).
Proof. unfold minimax_eval. rewrite minimax_succ. reflexivity. Qed.

Lemma plain_minimax_succ (d : nat) (b : board_type) (turn : bool) :
  plain_minimax (S d) b turn
  = if turn
    then best_of Z.max (sweep_eval b true)
                 (ac_values (plain_minimax d) b AC_PITS)
    else best_of Z.min (sweep_eval b false)
                 (opp_values (plain_minimax d) b OPP_PITS).
Proof. reflexivity. Qed.

Lemma best_of_max_fold (default : Z) (l : list Z) :
  l <> [] -> Forall (fun x => -48 <= x <= 48) l ->
  best_of Z.max default l = fold_left Z.max l (-99).
Proof.
  intros Hne Hall. destruct l as [|x xs]; [contradiction |].
  apply Forall_cons_iff in Hall. destruct Hall as [Hx _].
  cbn [best_of fold_left]. rewrite Z.max_r by lia. reflexivity.
Qed.

Lemma best_of_min_fold (default : Z) (l : list Z) :
  l <> [] -> Forall (fun x => -48 <= x <= 48) l ->
  best_of Z.min default l = fold_left Z.min l 99.
Proof.
  intros Hne Hall. destruct l as [|x xs]; [contradiction |].
  apply Forall_cons_iff in Hall. destruct Hall as [Hx _].
  cbn [best_of fold_left]. rewrite Z.min_r by lia. reflexivity.
Qed.

Lemma AC_PITS_are_pits : Forall is_pit AC_PITS.
Proof. unfold AC_PITS, is_pit. repeat constructor; lia. Qed.

Lemma OPP_PITS_are_pits : Forall is_pit OPP_PITS.
Proof. unfold OPP_PITS, is_pit. repeat constructor; lia. Qed.

Lemma values_nil (value : board_type -> bool -> Z) (b : board_type)
    (pits : list Z) :
  (ac_values value b pits = [] -> legal_pits b pits = [])
  /\ (opp_values value b pits = [] -> legal_pits b pits = []).
Proof.
  unfold ac_values, opp_values.
  split; intros H; apply map_eq_nil in H; exact H.
Qed.

(** On a board of at most 48 seeds and with a window inside
    [-99, 99], the search answers soundly for the plain value. *)
Lemma minimax_eval_sound (depth : nat) :
  forall b turn alpha beta,
  small_board b -> -99 <= alpha -> alpha < beta -> beta <= 99 ->
  window_sound alpha beta (minimax_eval depth b turn alpha beta)
               (plain_minimax depth b turn).
Proof.
  induction depth as [|d IH]; intros b turn alpha beta Hsmall Ha Hlt Hb.
  { pose proof (store_diff_bounds b Hsmall) as Hbounds.
    unfold minimax_eval. cbn [minimax plain_minimax fst]. unfold store_diff.
    unfold window_sound. lia. }
  pose proof (sweep_eval_bounds b turn Hsmall) as Hsweep.
  rewrite minimax_eval_succ, plain_minimax_succ. unfold scan.
  destruct turn.
  - destruct (ac_loop_sound (minimax_eval d) (plain_minimax d) b Hsmall IH
                alpha beta Ha Hb AC_PITS AC_PITS_are_pits
                (-99) (-1) alpha (-99))
      as [(Hr & _ & Hnil) | (Hmove & Hsound)]; try lia; cbv zeta in *.
    + rewrite Hr. cbn [fst snd]. change (-1 =? -1) with true. cbv iota.
      unfold ac_values. rewrite Hnil. cbn [map best_of].
      unfold window_sound. lia.
    + destruct (Z.eqb_spec
                  (snd (ac_loop (minimax_eval d) b AC_PITS (-99) (-1)
                                alpha beta)) (-1)) as [Heq | _];
        [contradiction |].
      rewrite best_of_max_fold; [exact Hsound | |].
      * intros Hempty. apply values_nil in Hempty.
        rewrite ac_loop_all_empty in Hmove
          by (apply legal_pits_nil; exact Hempty).
        apply Hmove. reflexivity.
      * apply ac_values_bounded with (child := minimax_eval d);
          auto using AC_PITS_are_pits.
  - destruct (opp_loop_sound (minimax_eval d) (plain_minimax d) b Hsmall IH
                alpha beta Ha Hb OPP_PITS OPP_PITS_are_pits
                99 (-1) beta 99)
      as [(Hr & _ & Hnil) | (Hmove & Hsound)]; try lia; cbv zeta in *.
    + rewrite Hr. cbn [fst snd]. change (-1 =? -1) with true. cbv iota.
      unfold opp_values. rewrite Hnil. cbn [map best_of].
      unfold window_sound. lia.
    + destruct (Z.eqb_spec
                  (snd (opp_loop (minimax_eval d) b OPP_PITS 99 (-1)
                                 alpha beta)) (-1)) as [Heq | _];
        [contradiction |].
      rewrite best_of_min_fold; [exact Hsound | |].
      * intros Hempty. apply values_nil in Hempty.
        rewrite opp_loop_all_empty in Hmove
          by (apply legal_pits_nil; exact Hempty).
        apply Hmove. reflexivity.
      * apply opp_values_bounded with (child := minimax_eval d);
          auto using OPP_PITS_are_pits.
Qed.

(** C7.  On every board of bytes whose cells sum to at most 48, for
    every turn and every depth, [minimax] called with the default window
    (alpha = -99, beta = 99) returns the value of plain, unpruned
    minimax of the same depth over [play_move] and the store
    difference. *)
Theorem minimax_refines_plain (depth : nat) (b : board_type) (turn : bool)
    (move_out : option Z) :
  wf_board b -> board_sum b <= 48 ->
  fst (minimax depth b turn move_out (-99) 99) = plain_minimax depth b turn.
Proof.
  intros Hwf Hsum. rewrite minimax_fst_move_out.
  destruct (minimax_eval_sound depth b turn (-99) 99 (conj Hwf Hsum))
    as (Hr & Ht & _ & _ & Hex); lia.
Qed.

Lemma minimax_refines_plain_witness :
  wf_board start_board /\ board_sum start_board <= 48
  /\ fst (minimax 4 start_board true (Some 0) (-99) 99) = 1
  /\ plain_minimax 4 start_board true = 1
  /\ fst (minimax 4 start_board true (Some 0) (-99) 99)
     = plain_minimax 4 start_board true.
Proof.
  assert (Hwf : wf_board start_board)
    by (split; [reflexivity | repeat constructor; lia]).
  assert (Hsum : board_sum start_board <= 48) by (vm_compute; discriminate).
  split; [exact Hwf |]. split; [exact Hsum |].
  split; [vm_compute; reflexivity |]. split; [vm_compute; reflexivity |].
  exact (minimax_refines_plain 4 start_board true (Some 0) Hwf Hsum).
Defined.

(** * Further properties of the rules engine *)

Ltac index_cases i Hi :=
  let Hc := fresh "Hc" in
  assert (i = 0 \/ i = 1 \/ i = 2 \/ i = 3 \/ i = 4 \/ i = 5 \/ i = 6
          \/ i = 7 \/ i = 8 \/ i = 9 \/ i = 10 \/ i = 11 \/ i = 12
          \/ i = 13) as Hc by lia;
  clear Hi;
  repeat (destruct Hc as [Hc | Hc]; [subst i |]); [.. | subst i].

(** X1.  [next_pit_index] keeps the cursor on the board and never puts
    it on the store of the side that is not moving. *)
Theorem next_pit_index_skips_other_store (i : Z) (mover : bool) :
  0 <= i < 14 ->
  0 <= next_pit_index i mover < 14
  /\ next_pit_index i mover <> other_store mover.
Proof.
  intros Hi. split; [apply next_pit_index_range; exact Hi |].
  assert (Hc : 0 <= i < 14) by exact Hi.
  index_cases i Hc; destruct mover; vm_compute; discriminate.
Qed.

Lemma next_pit_index_skips_other_store_witness :
  0 <= 12 < 14
  /\ next_pit_index 12 true = 0
  /\ next_pit_index 12 true <> other_store true.
Proof.
  assert (Hi : 0 <= 12 < 14) by lia.
  split; [exact Hi |]. split; [reflexivity |].
  exact (proj2 (next_pit_index_skips_other_store 12 true Hi)).
Defined.

Lemma next_not_other_store (i : Z) (mover : bool) :
  0 <= i < 14 -> next_pit_index i mover <> other_store mover.
Proof.
  intros Hi. assert (Hc : 0 <= i < 14) by exact Hi.
  index_cases i Hc; destruct mover; vm_compute; discriminate.
Qed.

(** X2.  The cursor of a mover runs over a cycle of 13 cells: from any
    cell but the other side's store, 13 calls of [next_pit_index] come
    back to the cell, and fewer do not. *)
Theorem advance_period_13 (i : Z) (mover : bool) :
  0 <= i < 14 -> i <> other_store mover ->
  advance 13 i mover = i
  /\ forall k, (0 < k < 13)%nat -> advance k i mover <> i.
Proof.
  intros Hi Hne. assert (Hc : 0 <= i < 14) by exact Hi.
  index_cases i Hc; destruct mover;
    try (exfalso; apply Hne; reflexivity);
    (split; [reflexivity |]);
    intros k Hk;
    do 13 (destruct k as [|k]; [try lia; vm_compute; discriminate |]);
    lia.
Qed.

Lemma advance_period_13_witness :
  0 <= 9 < 14 /\ 9 <> other_store false
  /\ advance 13 9 false = 9 /\ advance 5 9 false <> 9.
Proof.
  assert (Hi : 0 <= 9 < 14) by lia.
  assert (Hne : 9 <> other_store false) by discriminate.
  split; [exact Hi |]. split; [exact Hne |].
  destruct (advance_period_13 9 false Hi Hne) as [Hback Hnot].
  split; [exact Hback | apply Hnot; lia].
Defined.

Lemma advance_range (k : nat) (i : Z) (mover : bool) :
  0 <= i < 14 -> 0 <= advance k i mover < 14.
Proof.
  revert i. induction k as [|k IH]; intros i Hi; cbn [advance]; [exact Hi |].
  apply IH, next_pit_index_range, Hi.
Qed.

Lemma sow_cursor (n : nat) (b : board_type) (idx : Z) (mover : bool) :
  snd (sow n b idx mover) = advance (Nat.pred n) idx mover.
Proof.
  revert b idx. induction n as [|n IH]; intros b idx; [reflexivity |].
  destruct n as [|k]; [reflexivity |].
  rewrite sow_step, IH. reflexivity.
Qed.

Lemma advance_succ_last (k : nat) (i : Z) (mover : bool) :
  advance (S k) i mover = next_pit_index (advance k i mover) mover.
Proof.
  revert i. induction k as [|k IH]; intros i; [reflexivity |].
  change (advance (S (S k)) i mover)
    with (advance (S k) (next_pit_index i mover) mover).
  rewrite IH. reflexivity.
Qed.

(** X3.  The last seed of a legal move lands as many cells after the
    source, along the mover's cycle, as the source held seeds. *)
Theorem landing_index_advance (b : board_type) (i : Z) :
  wf_board b -> legal_move b i ->
  landing_index b i = advance (Z.to_nat (get b i)) i (i <=? 5).
Proof.
  intros Hwf [Hpit Hne]. pose proof (get_range b i Hwf) as Hr.
  unfold landing_index, sown. rewrite sow_cursor, <- advance_succ_last.
  f_equal. lia.
Qed.

Lemma landing_after_seeds (b : board_type) (i : Z) (n : nat) :
  get b i = Z.of_nat n -> (0 < n)%nat ->
  landing_index b i = advance n i (i <=? 5).
Proof.
  intros Hn Hpos. unfold landing_index, sown.
  rewrite sow_cursor, <- advance_succ_last, Hn, Nat2Z.id.
  f_equal. lia.
Qed.

Lemma landing_index_advance_witness :
  wf_board start_board /\ legal_move start_board 10
  /\ landing_index start_board 10 = advance 4 10 false
  /\ landing_index start_board 10 = 0.
Proof.
  assert (Hwf : wf_board start_board)
    by (split; [reflexivity | repeat constructor; lia]).
  assert (Hlegal : legal_move start_board 10)
    by (split; [right; lia | vm_compute; discriminate]).
  split; [exact Hwf |]. split; [exact Hlegal |].
  split; [| reflexivity].
  exact (landing_index_advance start_board 10 Hwf Hlegal).
Defined.

Lemma get_incr_other (b : board_type) (i j : Z) :
  0 <= i -> 0 <= j -> i <> j -> get (incr b i) j = get b j.
Proof. intros. unfold incr. apply get_set_other; assumption. Qed.

(** A cell the cursor does not visit is not changed by the sowing loop. *)
Lemma sow_untouched (n : nat) (b : board_type) (idx c : Z) (mover : bool) :
  0 <= idx < 14 -> 0 <= c ->
  (forall k, (0 < k < n)%nat -> advance k idx mover <> c) ->
  get (fst (sow n b idx mover)) c = get b c.
Proof.
  revert b idx. induction n as [|n IH]; intros b idx Hidx Hc Hpath;
    [reflexivity |].
  destruct n as [|k]; [reflexivity |].
  rewrite sow_step.
  pose proof (next_pit_index_range idx mover Hidx) as Hnext.
  rewrite IH.
  - apply get_incr_other; try lia.
    apply (Hpath 1%nat). lia.
  - exact Hnext.
  - exact Hc.
  - intros j Hj. apply (Hpath (S j)). lia.
Qed.

Lemma advance_not_other_store (k : nat) (i : Z) (mover : bool) :
  0 <= i < 14 -> (0 < k)%nat -> advance k i mover <> other_store mover.
Proof.
  intros Hi Hk. destruct k as [|k]; [lia |].
  rewrite advance_succ_last. apply next_not_other_store.
  apply advance_range. exact Hi.
Qed.

Lemma other_store_range (mover : bool) : 0 <= other_store mover < 14.
Proof. destruct mover; cbn; lia. Qed.

Lemma landing_not_other_store (b : board_type) (i : Z) :
  wf_board b -> 0 <= i < 14 ->
  landing_index b i <> other_store (i <=? 5).
Proof.
  intros Hwf Hi. unfold landing_index. apply next_not_other_store.
  unfold sown. apply sow_wf; [apply wf_set; exact Hwf | exact Hi].
Qed.

Lemma pit_not_store (i : Z) (mover : bool) :
  is_pit i -> i <> other_store mover /\ i <> mover_store mover.
Proof. unfold is_pit, other_store, mover_store. destruct mover; lia. Qed.

Lemma other_store_unchanged (b : board_type) (i : Z) :
  wf_board b -> is_pit i ->
  get (fst (play_move b i)) (other_store (i <=? 5))
  = get b (other_store (i <=? 5)).
Proof.
  intros Hwf Hpit. pose proof (is_pit_range i Hpit) as Hi.
  set (mover := i <=? 5).
  pose proof (other_store_range mover) as Hs.
  pose proof (landing_not_other_store b i Hwf Hi) as Hland.
  pose proof (landing_index_range b i Hwf Hi) as Hl.
  fold mover in Hland.
  assert (Hmid : get (mid_board b i) (other_store mover)
                 = get b (other_store mover)).
  { unfold mid_board, sown. fold mover.
    rewrite sow_untouched.
    - apply get_set_other; try lia.
      apply (pit_not_store i mover Hpit).
    - exact Hi.
    - lia.
    - intros k Hk. apply advance_not_other_store; [exact Hi | lia]. }
  rewrite play_move_unfold. fold mover. rewrite <- Hmid.
  set (l := landing_index b i) in *. set (m := mid_board b i).
  unfold land.
  destruct ((l =? 6) || (l =? 13)) eqn:Hstore; cbn [fst];
    [apply get_incr_other; lia |].
  apply orb_false_iff in Hstore. destruct Hstore as [H6 H13].
  apply Z.eqb_neq in H6. apply Z.eqb_neq in H13.
  destruct ((get m l =? 0)
            && ((get m (12 - l) >? 0) && Bool.eqb (l <=? 5) mover)) eqn:Hc;
    cbn [fst]; [| apply get_incr_other; lia].
  apply andb_true_iff in Hc. destruct Hc as [_ Hc].
  apply andb_true_iff in Hc. destruct Hc as [_ Hside].
  apply eqb_prop in Hside.
  assert (Hf : 12 - l <> other_store mover /\ 0 <= 12 - l).
  { unfold other_store. destruct mover; lia. }
  assert (Hown : (if mover then 6 else 13) <> other_store mover
                 /\ 0 <= (if mover then 6 else 13)).
  { unfold other_store. destruct mover; lia. }
  rewrite !get_set_other by lia. reflexivity.
Qed.

(** X4.  A move never changes the store of the side that is not moving:
    the sowing skips it, the last seed cannot land in it and a capture
    fills the mover's store. *)
Theorem play_move_keeps_other_store (b : board_type) (i : Z) :
  wf_board b -> is_pit i ->
  get (fst (play_move b i)) (other_store (i <=? 5))
  = get b (other_store (i <=? 5)).
Proof.
  intros Hwf Hpit. apply other_store_unchanged; assumption.
Qed.

Lemma play_move_keeps_other_store_witness :
  wf_board capture_example /\ is_pit 0
  /\ get (fst (play_move capture_example 0)) 13 = get capture_example 13.
Proof.
  assert (Hwf : wf_board capture_example)
    by (split; [reflexivity | repeat constructor; lia]).
  assert (Hpit : is_pit 0) by (left; lia).
  split; [exact Hwf |]. split; [exact Hpit |].
  exact (play_move_keeps_other_store capture_example 0 Hwf Hpit).
Defined.

(** X5.  The extra turn is earned in the mover's own store only:
    [play_move] returns true exactly when the last seed lands in the
    store of the side that moved. *)
Theorem play_move_extra_turn_own_store (b : board_type) (i : Z) :
  wf_board b -> is_pit i ->
  (snd (play_move b i) = true
   <-> landing_index b i = mover_store (i <=? 5)).
Proof.
  intros Hwf Hpit. pose proof (is_pit_range i Hpit) as Hi.
  pose proof (landing_not_other_store b i Hwf Hi) as Hland.
  rewrite play_move_unfold, land_snd, orb_true_iff, !Z.eqb_eq.
  unfold mover_store, other_store in *.
  destruct (i <=? 5); lia.
Qed.

Lemma play_move_extra_turn_own_store_witness :
  wf_board start_board /\ is_pit 9
  /\ landing_index start_board 9 = mover_store (9 <=? 5)
  /\ snd (play_move start_board 9) = true.
Proof.
  assert (Hwf : wf_board start_board)
    by (split; [reflexivity | repeat constructor; lia]).
  assert (Hpit : is_pit 9) by (right; lia).
  split; [exact Hwf |]. split; [exact Hpit |]. split; [reflexivity |].
  apply (play_move_extra_turn_own_store start_board 9 Hwf Hpit).
  reflexivity.
Defined.

(** ** What the sowing loop adds to each cell *)

Lemma visits_nonneg (k : nat) (idx : Z) (mover : bool) (c : Z) :
  0 <= visits k idx mover c.
Proof.
  revert idx. induction k as [|k IH]; intros idx; cbn [visits]; [lia |].
  specialize (IH (next_pit_index idx mover)).
  destruct (next_pit_index idx mover =? c); lia.
Qed.

(** Without overflow the loop adds to a cell one seed per visit of the
    cursor. *)
Lemma sow_cell (n : nat) (b : board_type) (idx c : Z) (mover : bool) :
  wf_board b -> 0 <= idx < 14 -> 0 <= c < 14 ->
  board_sum b + Z.of_nat (Nat.pred n) <= 255 ->
  get (fst (sow n b idx mover)) c
  = get b c + visits (Nat.pred n) idx mover c.
Proof.
  revert b idx. induction n as [|n IH]; intros b idx Hwf Hidx Hc Hsum.
  - cbn. lia.
  - destruct n as [|k]; [cbn; lia |].
    rewrite sow_step.
    pose proof (next_pit_index_range idx mover Hidx) as Hnext.
    pose proof (get_le_sum b (next_pit_index idx mover) Hwf) as Hle.
    pose proof (get_range b (next_pit_index idx mover) Hwf) as Hr.
    cbn [Nat.pred] in *.
    assert (Hinc : board_sum (incr b (next_pit_index idx mover))
                   = board_sum b + 1) by (apply sum_incr; auto; lia).
    rewrite IH; [| apply wf_incr; exact Hwf | exact Hnext | exact Hc
                 | rewrite Hinc; cbn [Nat.pred]; lia].
    cbn [Nat.pred visits].
    destruct (Z.eqb_spec (next_pit_index idx mover) c) as [Heq | Hne].
    + rewrite Heq in *. rewrite get_incr_same by assumption.
      rewrite uint8_small by lia. lia.
    + rewrite get_incr_other by lia. lia.
Qed.

(** The cell [c] of the board the last seed arrives on. *)
Lemma mid_board_cell (b : board_type) (i c : Z) :
  wf_board b -> 0 <= i < 14 -> 0 <= c < 14 -> board_sum b <= 255 ->
  get (mid_board b i) c
  = (if c =? i then 0 else get b c)
    + visits (Nat.pred (Z.to_nat (get b i))) i (i <=? 5) c.
Proof.
  intros Hwf Hi Hc Hsum. unfold mid_board, sown.
  pose proof (get_range b i Hwf) as Hr.
  pose proof Hwf as [Hlen _].
  assert (Hzero : board_sum (set b i 0) = board_sum b - get b i).
  { rewrite sum_set by (rewrite Hlen; lia). rewrite uint8_small; lia. }
  rewrite sow_cell; [| apply wf_set; exact Hwf | exact Hi | exact Hc
                     | rewrite Hzero; lia].
  f_equal. destruct (Z.eqb_spec c i) as [-> | Hne].
  - rewrite get_set_same by (rewrite Hlen; lia). reflexivity.
  - apply get_set_other; lia.
Qed.

(** Without overflow the landing rule never lowers the mover's store. *)
Lemma land_own_store (m : board_type) (l : Z) (mover : bool) :
  wf_board m -> 0 <= l < 14 -> board_sum m <= 254 ->
  get m (mover_store mover) <= get (fst (land m l mover)) (mover_store mover).
Proof.
  intros Hwf Hl Hsum. pose proof Hwf as [Hlen _].
  set (s := mover_store mover).
  assert (Hs : 0 <= s < 14)
    by (subst s; unfold mover_store; destruct mover; lia).
  pose proof (get_range m s Hwf) as Hrs.
  pose proof (get_le_sum m s Hwf) as Hles.
  unfold land.
  destruct ((l =? 6) || (l =? 13)) eqn:Hstore; cbn [fst].
  { destruct (Z.eq_dec l s) as [-> | Hne].
    - rewrite get_incr_same by assumption. rewrite uint8_small; lia.
    - rewrite get_incr_other by lia. lia. }
  apply orb_false_iff in Hstore. destruct Hstore as [H6 H13].
  apply Z.eqb_neq in H6. apply Z.eqb_neq in H13.
  assert (Hls : l <> s) by (subst s; unfold mover_store; destruct mover; lia).
  destruct ((get m l =? 0)
            && ((get m (12 - l) >? 0) && Bool.eqb (l <=? 5) mover)); cbn [fst].
  - fold (mover_store mover). fold s.
    assert (Hfs : 12 - l <> s)
      by (subst s; unfold mover_store; destruct mover; lia).
    pose proof (two_cells_le_sum m s (12 - l) Hwf Hs ltac:(lia) ltac:(lia)).
    pose proof (get_range m (12 - l) Hwf).
    rewrite get_set_other by lia.
    rewrite get_set_same by (rewrite Hlen; lia).
    rewrite uint8_small; lia.
  - rewrite get_incr_other by lia. lia.
Qed.

(** X6.  Banked seeds stay banked: on a board whose cells sum to at
    most 255, a legal move lowers neither store. *)
Theorem play_move_stores_monotone (b : board_type) (i : Z) :
  wf_board b -> legal_move b i -> board_sum b <= 255 ->
  get b 6 <= get (fst (play_move b i)) 6
  /\ get b 13 <= get (fst (play_move b i)) 13.
Proof.
  intros Hwf [Hpit Hne] Hsum. pose proof (is_pit_range i Hpit) as Hi.
  pose proof (get_range b i Hwf) as Hr.
  pose proof (other_store_unchanged b i Hwf Hpit) as Hother.
  assert (Hown : get b (mover_store (i <=? 5))
                 <= get (fst (play_move b i)) (mover_store (i <=? 5))).
  { rewrite play_move_unfold.
    pose proof (mid_board_sum b i Hwf Hi Hsum) as Hmid.
    pose proof (land_own_store (mid_board b i) (landing_index b i) (i <=? 5)
                  (mid_board_wf b i Hwf Hi)
                  (landing_index_range b i Hwf Hi) ltac:(lia)) as Hland.
    assert (Hs : 0 <= mover_store (i <=? 5) < 14
                 /\ mover_store (i <=? 5) <> i).
    { unfold mover_store, is_pit in *. destruct (i <=? 5); lia. }
    rewrite (mid_board_cell b i (mover_store (i <=? 5))) in Hland
      by (auto; lia).
    destruct (Z.eqb_spec (mover_store (i <=? 5)) i); [lia |].
    pose proof (visits_nonneg (Nat.pred (Z.to_nat (get b i))) i (i <=? 5)
                  (mover_store (i <=? 5))).
    lia. }
  unfold mover_store, other_store in *. destruct (i <=? 5); lia.
Qed.

Lemma play_move_stores_monotone_witness :
  wf_board capture_example /\ legal_move capture_example 0
  /\ board_sum capture_example <= 255
  /\ get capture_example 6 <= get (fst (play_move capture_example 0)) 6
  /\ get capture_example 13 <= get (fst (play_move capture_example 0)) 13.
Proof.
  assert (Hwf : wf_board capture_example)
    by (split; [reflexivity | repeat constructor; lia]).
  assert (Hlegal : legal_move capture_example 0)
    by (split; [left; lia | vm_compute; discriminate]).
  assert (Hsum : board_sum capture_example <= 255)
    by (vm_compute; discriminate).
  split; [exact Hwf |]. split; [exact Hlegal |]. split; [exact Hsum |].
  exact (play_move_stores_monotone capture_example 0 Hwf Hlegal Hsum).
Defined.

Ltac pit_cases i Hpit :=
  let Hc := fresh "Hc" in
  assert (i = 0 \/ i = 1 \/ i = 2 \/ i = 3 \/ i = 4 \/ i = 5
          \/ i = 7 \/ i = 8 \/ i = 9 \/ i = 10 \/ i = 11 \/ i = 12) as Hc
    by (unfold is_pit in Hpit; lia);
  clear Hpit;
  repeat (destruct Hc as [Hc | Hc]; [subst i |]); [.. | subst i].

Lemma advance_no_return (i : Z) (k : nat) :
  is_pit i -> (0 < k < 13)%nat -> advance k i (i <=? 5) <> i.
Proof.
  intros Hpit Hk.
  pit_cases i Hpit;
    do 13 (destruct k as [|k]; [try lia; vm_compute; discriminate |]);
    lia.
Qed.

Lemma advance_lap (i : Z) : is_pit i -> advance 13 i (i <=? 5) = i.
Proof. intros Hpit. pit_cases i Hpit; reflexivity. Qed.

(** One lap less the last seed: every cell of the mover's cycle but
    the source is visited once. *)
Lemma visits_lap (i c : Z) :
  is_pit i -> 0 <= c < 14 ->
  visits 12 i (i <=? 5) c
  = if (c =? i) || (c =? other_store (i <=? 5)) then 0 else 1.
Proof.
  intros Hpit Hc. pit_cases i Hpit; index_cases c Hc; reflexivity.
Qed.

(** X7.  A legal move from a pit that holds at most 12 seeds leaves
    that pit empty: the sowing and the last seed do not come back to
    it. *)
Theorem play_move_empties_source (b : board_type) (i : Z) :
  wf_board b -> legal_move b i -> get b i <= 12 ->
  get (fst (play_move b i)) i = 0.
Proof.
  intros Hwf [Hpit Hne] Hfew. pose proof (is_pit_range i Hpit) as Hi.
  pose proof (get_range b i Hwf) as Hr. pose proof Hwf as [Hlen _].
  set (n := Z.to_nat (get b i)).
  assert (Hn : get b i = Z.of_nat n /\ (0 < n <= 12)%nat) by lia.
  destruct Hn as [Hn Hn12].
  assert (Hmid : get (mid_board b i) i = 0).
  { unfold mid_board, sown. fold n. rewrite sow_untouched.
    - rewrite get_set_same by (rewrite Hlen; lia). reflexivity.
    - exact Hi.
    - lia.
    - intros k Hk. apply advance_no_return; [exact Hpit | lia]. }
  assert (Hl : landing_index b i <> i).
  { rewrite (landing_after_seeds b i n Hn) by lia.
    apply advance_no_return; [exact Hpit | lia]. }
  pose proof (landing_index_range b i Hwf Hi) as Hlr.
  pose proof (mid_board_wf b i Hwf Hi) as [Hmlen _].
  rewrite play_move_unfold.
  set (l := landing_index b i) in *. set (m := mid_board b i) in *.
  unfold land.
  destruct ((l =? 6) || (l =? 13)) eqn:Hstore; cbn [fst].
  { rewrite get_incr_other by lia. exact Hmid. }
  apply orb_false_iff in Hstore. destruct Hstore as [H6 H13].
  apply Z.eqb_neq in H6. apply Z.eqb_neq in H13.
  destruct ((get m l =? 0)
            && ((get m (12 - l) >? 0) && Bool.eqb (l <=? 5) (i <=? 5)));
    cbn [fst].
  - destruct (Z.eq_dec (12 - l) i) as [Heq | Hneq].
    + rewrite Heq. rewrite get_set_same by (rewrite length_set, Hmlen; lia).
      reflexivity.
    + assert (Hs : (if i <=? 5 then 6 else 13) <> i
                   /\ 0 <= (if i <=? 5 then 6 else 13))
        by (unfold is_pit in Hpit; destruct (i <=? 5); lia).
      rewrite !get_set_other by lia. exact Hmid.
  - rewrite get_incr_other by lia. exact Hmid.
Qed.

Lemma play_move_empties_source_witness :
  wf_board start_board /\ legal_move start_board 3
  /\ get start_board 3 <= 12
  /\ get (fst (play_move start_board 3)) 3 = 0.
Proof.
  assert (Hwf : wf_board start_board)
    by (split; [reflexivity | repeat constructor; lia]).
  assert (Hlegal : legal_move start_board 3)
    by (split; [left; lia | vm_compute; discriminate]).
  assert (Hfew : get start_board 3 <= 12) by (vm_compute; discriminate).
  split; [exact Hwf |]. split; [exact Hlegal |]. split; [exact Hfew |].
  exact (play_move_empties_source start_board 3 Hwf Hlegal Hfew).
Defined.

(** X8.  The lap of 13 seeds: on a board whose cells sum to at most
    255, a move from a pit that holds exactly 13 seeds sows one seed in
    each of the 12 other cells of the mover's cycle, lands on its own
    emptied source and always captures: the source and the facing pit
    end empty, the mover's store gains 3 more than the facing pit held,
    and the turn passes. *)
Theorem play_move_lap_captures (b : board_type) (i : Z) :
  wf_board b -> is_pit i -> get b i = 13 -> board_sum b <= 255 ->
  landing_index b i = i
  /\ snd (play_move b i) = false
  /\ get (fst (play_move b i)) i = 0
  /\ get (fst (play_move b i)) (12 - i) = 0
  /\ get (fst (play_move b i)) (mover_store (i <=? 5))
     = get b (mover_store (i <=? 5)) + get b (12 - i) + 3.
Proof.
  intros Hwf Hpit H13 Hsum. pose proof (is_pit_range i Hpit) as Hi.
  pose proof (mid_board_wf b i Hwf Hi) as Hmwf.
  pose proof Hmwf as [Hmlen _].
  assert (Hl : landing_index b i = i).
  { rewrite (landing_after_seeds b i 13) by (rewrite ?H13; lia).
    apply advance_lap. exact Hpit. }
  set (s := mover_store (i <=? 5)).
  assert (Hs : 0 <= s < 14 /\ s <> i /\ s <> 12 - i
               /\ s <> other_store (i <=? 5))
    by (subst s; unfold mover_store, other_store, is_pit in *;
        destruct (i <=? 5); lia).
  assert (Hf : 0 <= 12 - i < 14 /\ 12 - i <> i
               /\ 12 - i <> other_store (i <=? 5)).
  { unfold other_store, is_pit in *. destruct (Z.leb_spec i 5); lia. }
  assert (Hcell : forall c, 0 <= c < 14 ->
            get (mid_board b i) c
            = (if c =? i then 0 else get b c)
              + (if (c =? i) || (c =? other_store (i <=? 5))
                 then 0 else 1)).
  { intros c Hc. rewrite mid_board_cell by assumption.
    rewrite H13. change (Nat.pred (Z.to_nat 13)) with 12%nat.
    rewrite visits_lap by assumption. reflexivity. }
  assert (Hmi : get (mid_board b i) i = 0).
  { rewrite Hcell by exact Hi. rewrite Z.eqb_refl. reflexivity. }
  assert (Hmf : get (mid_board b i) (12 - i) = get b (12 - i) + 1).
  { rewrite Hcell by lia.
    destruct (Z.eqb_spec (12 - i) i); [lia |].
    destruct (Z.eqb_spec (12 - i) (other_store (i <=? 5))); [lia |].
    reflexivity. }
  assert (Hms : get (mid_board b i) s = get b s + 1).
  { rewrite Hcell by lia.
    destruct (Z.eqb_spec s i); [lia |].
    destruct (Z.eqb_spec s (other_store (i <=? 5))); [lia |].
    reflexivity. }
  pose proof (get_range b (12 - i) Hwf) as Hrf.
  pose proof (get_range b s Hwf) as Hrs.
  pose proof (two_cells_le_sum (mid_board b i) s (12 - i) Hmwf
                ltac:(lia) ltac:(lia) ltac:(lia)) as Htwo.
  pose proof (mid_board_sum b i Hwf Hi Hsum) as Hmsum.
  rewrite H13 in Hmsum.
  assert (Hland : land (mid_board b i) i (i <=? 5)
                  = (set (set (mid_board b i) s
                              (get (mid_board b i) s
                               + (1 + get (mid_board b i) (12 - i))))
                         (12 - i) 0, false)).
  { unfold land.
    replace ((i =? 6) || (i =? 13)) with false
      by (unfold is_pit in Hpit; symmetry; apply orb_false_iff;
          split; apply Z.eqb_neq; lia).
    rewrite Hmi, Hmf, eqb_reflx.
    replace (get b (12 - i) + 1 >? 0) with true
      by (symmetry; rewrite Z.gtb_ltb; apply Z.ltb_lt; lia).
    reflexivity. }
  split; [exact Hl |].
  rewrite play_move_unfold, Hl, Hland. cbn [fst snd].
  split; [reflexivity |]. split; [| split].
  - rewrite !get_set_other by lia. exact Hmi.
  - rewrite get_set_same by (rewrite length_set, Hmlen; lia). reflexivity.
  - rewrite get_set_other by lia.
    rewrite get_set_same by (rewrite Hmlen; lia).
    rewrite Hms, Hmf. rewrite uint8_small; lia.
Qed.

Lemma play_move_lap_captures_witness :
  wf_board lap_board /\ is_pit 8 /\ get lap_board 8 = 13
  /\ board_sum lap_board <= 255
  /\ play_move lap_board 8 = ([1; 1; 1; 1; 0; 1; 0; 1; 0; 1; 1; 1; 1; 7], false)
  /\ get (fst (play_move lap_board 8)) (mover_store (8 <=? 5))
     = get lap_board (mover_store (8 <=? 5)) + get lap_board (12 - 8) + 3.
Proof.
  assert (Hwf : wf_board lap_board)
    by (split; [reflexivity | repeat constructor; lia]).
  assert (Hpit : is_pit 8) by (right; lia).
  assert (Hsum : board_sum lap_board <= 255) by (vm_compute; discriminate).
  split; [exact Hwf |]. split; [exact Hpit |]. split; [reflexivity |].
  split; [exact Hsum |]. split; [reflexivity |].
  apply (play_move_lap_captures lap_board 8 Hwf Hpit eq_refl Hsum).
Defined.

(** * Further properties of the search *)

(** X9.  Soundness of every window: on a board of at most 48 seeds and
    for every window with -99 <= alpha < beta <= 99, the evaluation
    [minimax] returns lies in [-48, 48]; it is the plain minimax value
    when it is strictly inside the window, an upper bound of it when it
    is at most alpha and a lower bound of it when it is at least
    beta. *)
Theorem minimax_window_sound (depth : nat) (b : board_type) (turn : bool)
    (move_out : option Z) (alpha beta : Z) :
  wf_board b -> board_sum b <= 48 ->
  -99 <= alpha -> alpha < beta -> beta <= 99 ->
  let r := fst (minimax depth b turn move_out alpha beta) in
  let t := plain_minimax depth b turn in
  -48 <= r <= 48
  /\ (r <= alpha -> t <= r)
  /\ (beta <= r -> r <= t)
  /\ (alpha < r < beta -> r = t).
Proof.
  intros Hwf Hsum Ha Hlt Hb. cbv zeta. rewrite minimax_fst_move_out.
  destruct (minimax_eval_sound depth b turn alpha beta (conj Hwf Hsum)
              Ha Hlt Hb) as (Hr & _ & Hlow & Hhigh & Hin).
  auto.
Qed.

Lemma minimax_window_sound_witness :
  wf_board start_board /\ board_sum start_board <= 48
  /\ fst (minimax 4 start_board true None (-99) 0) = 0
  /\ plain_minimax 4 start_board true = 1
  /\ (0 <= fst (minimax 4 start_board true None (-99) 0) ->
      fst (minimax 4 start_board true None (-99) 0)
      <= plain_minimax 4 start_board true).
Proof.
  assert (Hwf : wf_board start_board)
    by (split; [reflexivity | repeat constructor; lia]).
  assert (Hsum : board_sum start_board <= 48) by (vm_compute; discriminate).
  split; [exact Hwf |]. split; [exact Hsum |].
  split; [vm_compute; reflexivity |]. split; [vm_compute; reflexivity |].
  apply (minimax_window_sound 4 start_board true None (-99) 0 Hwf Hsum); lia.
Defined.

Lemma scan_sentinel_no_move (d : nat) (b : board_type) (turn : bool)
    (alpha beta : Z) :
  small_board b -> -99 <= alpha -> alpha < beta -> beta <= 99 ->
  snd (scan d b turn alpha beta) = -1 ->
  forall i, In i (if turn then AC_PITS else OPP_PITS) -> get b i = 0.
Proof.
  intros Hsmall Ha Hlt Hb Hscan. unfold scan in Hscan.
  pose proof (minimax_eval_sound d) as Hchild.
  apply legal_pits_nil. destruct turn.
  - destruct (ac_loop_sound (minimax_eval d) (plain_minimax d) b Hsmall Hchild
                alpha beta Ha Hb AC_PITS AC_PITS_are_pits
                (-99) (-1) alpha (-99))
      as [(_ & _ & Hnil) | (Hmove & _)]; cbv zeta in *;
      try lia; try contradiction; exact Hnil.
  - destruct (opp_loop_sound (minimax_eval d) (plain_minimax d) b Hsmall Hchild
                alpha beta Ha Hb OPP_PITS OPP_PITS_are_pits
                99 (-1) beta 99)
      as [(_ & _ & Hnil) | (Hmove & _)]; cbv zeta in *;
      try lia; try contradiction; exact Hnil.
Qed.

(** X10.  The sentinel means the end of the game: on a board of at most
    48 seeds, at depth 1 or more and with a window inside [-99, 99],
    [minimax] reports -1 if and only if the six pits of the side to
    move are empty. *)
Theorem minimax_sentinel_iff_no_move (d : nat) (b : board_type) (turn : bool)
    (alpha beta : Z) :
  wf_board b -> board_sum b <= 48 ->
  -99 <= alpha -> alpha < beta -> beta <= 99 ->
  (reports (S d) b turn alpha beta (-1)
   <-> forall i, In i (if turn then AC_PITS else OPP_PITS) -> get b i = 0).
Proof.
  intros Hwf Hsum Ha Hlt Hb. rewrite reports_succ. split.
  - apply scan_sentinel_no_move; auto. split; assumption.
  - apply scan_all_empty.
Qed.

Lemma minimax_sentinel_iff_no_move_witness :
  wf_board ac_swept_board /\ board_sum ac_swept_board <= 48
  /\ (forall i, In i AC_PITS -> get ac_swept_board i = 0)
  /\ reports 3 ac_swept_board true (-99) 99 (-1).
Proof.
  assert (Hwf : wf_board ac_swept_board)
    by (split; [reflexivity | repeat constructor; lia]).
  assert (Hsum : board_sum ac_swept_board <= 48) by (vm_compute; discriminate).
  assert (Hempty : forall i, In i (if true then AC_PITS else OPP_PITS) ->
                             get ac_swept_board i = 0).
  { intros i Hi. cbn in Hi.
    repeat (destruct Hi as [<- | Hi]; [reflexivity |]). contradiction. }
  split; [exact Hwf |]. split; [exact Hsum |]. split; [exact Hempty |].
  apply (minimax_sentinel_iff_no_move 2 ac_swept_board true (-99) 99 Hwf Hsum);
    try lia.
  exact Hempty.
Defined.

(** Outside a game of 48 seeds the sentinel can hide a legal move: with
    99 seeds in the opponent's store no child beats the initial -99. *)
Example sentinel_with_a_legal_move :
  legal_move [0; 0; 0; 1; 0; 0; 0; 0; 0; 0; 0; 0; 0; 99] 3
  /\ reports 1 [0; 0; 0; 1; 0; 0; 0; 0; 0; 0; 0; 0; 0; 99] true (-99) 99 (-1).
Proof.
  split; [split; [left; lia | vm_compute; discriminate] |].
  intros v. vm_compute. reflexivity.
Qed.

(** ** The move that is reported *)

Section BestChild.

Variable child : board_type -> bool -> Z -> Z -> Z.
Variable b : board_type.

(** When the loop over [AC_PITS] starts with [alpha] equal to the best
    score, the score it ends with is the answer of the reported pit for
    a window that the answer clears from below. *)
Lemma ac_loop_best (pits : list Z) (beta : Z) :
  forall best_eval best_move,
  let r := ac_loop child b pits best_eval best_move best_eval beta in
  r = (best_eval, best_move)
  \/ exists a, best_eval <= a /\ a < fst r
       /\ In (snd r) pits /\ get b (snd r) <> 0
       /\ fst r = child (fst (play_move b (snd r)))
                        (snd (play_move b (snd r))) a beta.
Proof.
  induction pits as [|i rest IH]; intros best_eval best_move;
    [left; reflexivity |].
  cbn [ac_loop]. destruct (Z.eqb_spec (get b i) 0) as [Hz | Hnz].
  { destruct (IH best_eval best_move)
      as [Hr | (a & H1 & H2 & H3 & H4 & H5)]; cbv zeta in *;
      [left; exact Hr |].
    right. exists a.
    split; [lia |]. split; [lia |]. split; [right; exact H3 |].
    split; [exact H4 | exact H5]. }
  destruct (play_move b i) as [board_copy go_again] eqn:Hplay.
  set (r0 := child board_copy go_again best_eval beta).
  assert (Hhere : r0 = child (fst (play_move b i)) (snd (play_move b i))
                             best_eval beta)
    by (rewrite Hplay; reflexivity).
  destruct (Z.gtb_spec r0 best_eval) as [Hgt | Hle].
  - rewrite Z.max_r by lia.
    destruct (Z.leb_spec beta r0).
    + right. exists best_eval. cbn [fst snd].
      split; [lia |]. split; [lia |]. split; [left; reflexivity |].
        split; [exact Hnz | exact Hhere].
    + destruct (IH r0 i) as [Hr | (a & H1 & H2 & H3 & H4 & H5)];
        cbv zeta in *.
      * right. exists best_eval. rewrite Hr. cbn [fst snd].
        split; [lia |]. split; [lia |]. split; [left; reflexivity |].
        split; [exact Hnz | exact Hhere].
      * right. exists a.
        split; [lia |]. split; [lia |]. split; [right; exact H3 |].
    split; [exact H4 | exact H5].
  - rewrite Z.max_l by lia.
    destruct (Z.leb_spec beta best_eval); [left; reflexivity |].
    destruct (IH best_eval best_move)
      as [Hr | (a & H1 & H2 & H3 & H4 & H5)]; cbv zeta in *;
      [left; exact Hr |].
    right. exists a.
    split; [lia |]. split; [lia |]. split; [right; exact H3 |].
    split; [exact H4 | exact H5].
Qed.

Lemma opp_loop_best (pits : list Z) (alpha : Z) :
  forall best_eval best_move,
  let r := opp_loop child b pits best_eval best_move alpha best_eval in
  r = (best_eval, best_move)
  \/ exists be, be <= best_eval /\ fst r < be
       /\ In (snd r) pits /\ get b (snd r) <> 0
       /\ fst r = child (fst (play_move b (snd r)))
                        (negb (snd (play_move b (snd r)))) alpha be.
Proof.
  induction pits as [|i rest IH]; intros best_eval best_move;
    [left; reflexivity |].
  cbn [opp_loop]. destruct (Z.eqb_spec (get b i) 0) as [Hz | Hnz].
  { destruct (IH best_eval best_move)
      as [Hr | (a & H1 & H2 & H3 & H4 & H5)]; cbv zeta in *;
      [left; exact Hr |].
    right. exists a.
    split; [lia |]. split; [lia |]. split; [right; exact H3 |].
    split; [exact H4 | exact H5]. }
  destruct (play_move b i) as [board_copy go_again] eqn:Hplay.
  set (r0 := child board_copy (negb go_again) alpha best_eval).
  assert (Hhere : r0 = child (fst (play_move b i))
                             (negb (snd (play_move b i))) alpha best_eval)
    by (rewrite Hplay; reflexivity).
  destruct (Z.ltb_spec r0 best_eval) as [Hlt | Hge].
  - rewrite Z.min_r by lia.
    destruct (Z.leb_spec r0 alpha).
    + right. exists best_eval. cbn [fst snd].
      split; [lia |]. split; [lia |]. split; [left; reflexivity |].
        split; [exact Hnz | exact Hhere].
    + destruct (IH r0 i) as [Hr | (a & H1 & H2 & H3 & H4 & H5)];
        cbv zeta in *.
      * right. exists best_eval. rewrite Hr. cbn [fst snd].
        split; [lia |]. split; [lia |]. split; [left; reflexivity |].
        split; [exact Hnz | exact Hhere].
      * right. exists a.
        split; [lia |]. split; [lia |]. split; [right; exact H3 |].
    split; [exact H4 | exact H5].
  - rewrite Z.min_l by lia.
    destruct (Z.leb_spec best_eval alpha); [left; reflexivity |].
    destruct (IH best_eval best_move)
      as [Hr | (a & H1 & H2 & H3 & H4 & H5)]; cbv zeta in *;
      [left; exact Hr |].
    right. exists a.
    split; [lia |]. split; [lia |]. split; [right; exact H3 |].
    split; [exact H4 | exact H5].
Qed.

End BestChild.

(** X11.  The reported move is a best move of plain minimax: on a board
    of at most 48 seeds, when [minimax] called with the default window
    at depth [d + 1] reports a pit, the position that pit leads to has,
    at depth [d] and for the side that [main] lets play next, the plain
    minimax value of the given position. *)
Theorem minimax_reports_best_move (d : nat) (b : board_type) (turn : bool)
    (m : Z) :
  wf_board b -> board_sum b <= 48 ->
  reports (S d) b turn (-99) 99 m -> m <> -1 ->
  plain_minimax d (fst (play_move b m))
                (next_turn turn (snd (play_move b m)))
  = plain_minimax (S d) b turn.
Proof.
  intros Hwf Hsum Hrep Hm. apply reports_succ in Hrep.
  assert (Hsmall : small_board b) by (split; assumption).
  destruct (minimax_eval_sound (S d) b turn (-99) 99 Hsmall)
    as (Hr & Ht & _ & _ & Hex); try lia.
  assert (Heval : minimax_eval (S d) b turn (-99) 99
                  = fst (scan d b turn (-99) 99)).
  { rewrite minimax_eval_succ, Hrep.
    destruct (Z.eqb_spec m (-1)); [contradiction | reflexivity]. }
  rewrite Heval in *. rewrite <- Hex by lia. clear Hex Heval.
  unfold scan in *. destruct turn; cbn [next_turn].
  - destruct (ac_loop_best (minimax_eval d) b AC_PITS 99 (-99) (-1))
      as [Hsame | (a & Ha & Hlt & Hin & Hne & Hval)]; cbv zeta in *.
    { rewrite Hsame in Hrep. cbn in Hrep. congruence. }
    rewrite Hrep in *.
    assert (Hpit : is_pit m)
      by (exact (proj1 (Forall_forall _ _) AC_PITS_are_pits m Hin)).
    pose proof (small_board_play_move b m Hsmall Hpit Hne) as Hchild.
    destruct (minimax_eval_sound d (fst (play_move b m))
                (snd (play_move b m)) a 99 Hchild
                ltac:(lia) ltac:(lia) ltac:(lia))
      as (_ & _ & _ & _ & Hcex).
    rewrite <- Hval in Hcex.
    destruct (snd (play_move b m)); symmetry; apply Hcex; lia.
  - destruct (opp_loop_best (minimax_eval d) b OPP_PITS (-99) 99 (-1))
      as [Hsame | (be & Hbe & Hlt & Hin & Hne & Hval)]; cbv zeta in *.
    { rewrite Hsame in Hrep. cbn in Hrep. congruence. }
    rewrite Hrep in *.
    assert (Hpit : is_pit m)
      by (exact (proj1 (Forall_forall _ _) OPP_PITS_are_pits m Hin)).
    pose proof (small_board_play_move b m Hsmall Hpit Hne) as Hchild.
    destruct (minimax_eval_sound d (fst (play_move b m))
                (negb (snd (play_move b m))) (-99) be Hchild
                ltac:(lia) ltac:(lia) ltac:(lia))
      as (_ & _ & _ & _ & Hcex).
    rewrite <- Hval in Hcex.
    destruct (snd (play_move b m)); cbn [negb] in *;
      symmetry; apply Hcex; lia.
Qed.

Lemma minimax_reports_best_move_witness :
  wf_board start_board /\ board_sum start_board <= 48
  /\ reports 4 start_board true (-99) 99 5 /\ 5 <> -1
  /\ plain_minimax 3 (fst (play_move start_board 5))
                   (next_turn true (snd (play_move start_board 5)))
     = plain_minimax 4 start_board true.
Proof.
  assert (Hwf : wf_board start_board)
    by (split; [reflexivity | repeat constructor; lia]).
  assert (Hsum : board_sum start_board <= 48) by (vm_compute; discriminate).
  assert (Hrep : reports 4 start_board true (-99) 99 5)
    by (intros v; vm_compute; reflexivity).
  assert (Hne : 5 <> -1) by discriminate.
  split; [exact Hwf |]. split; [exact Hsum |]. split; [exact Hrep |].
  split; [exact Hne |].
  exact (minimax_reports_best_move 3 start_board true 5 Hwf Hsum Hrep Hne).
Defined.

(** * The game loop of [main] *)

(** X12.  [main] initialises every cell: whatever the 14 cells held,
    the board it builds is the starting position, 4 seeds in each of
    the 12 pits and empty stores. *)
Theorem init_board_start (garbage : board_type) :
  wf_board garbage -> init_board 4 garbage = start_board.
Proof.
  intros Hwf. board_cells garbage Hwf. reflexivity.
Qed.

Lemma init_board_start_witness :
  wf_board full_pit_board /\ init_board 4 full_pit_board = start_board.
Proof.
  assert (Hwf : wf_board full_pit_board)
    by (split; [reflexivity | repeat constructor; lia]).
  split; [exact Hwf |].
  exact (init_board_start full_pit_board Hwf).
Defined.

Lemma init_board_is_start (garbage : board_type) :
  wf_board garbage -> init_board 4 garbage = start_board.
Proof.
  intros Hwf. board_cells garbage Hwf. reflexivity.
Qed.

Lemma minimax_slot_succ (d : nat) (b : board_type) (turn : bool)
    (junk alpha beta : Z) :
  snd (minimax (S d) b turn (Some junk) alpha beta)
  = Some (snd (scan d b turn alpha beta)).
Proof. rewrite minimax_succ. reflexivity. Qed.

(** What a round of the loop does on AlphaCala's turn, at depth 1 or
    more: it stops on the sentinel, and plays the reported pit
    otherwise. *)
Lemma game_step_ac (d : nat) (junk row : Z) (b : board_type) :
  game_step (S d) junk b true row
  = if snd (scan d b true (-99) 99) =? -1 then None
    else Some (fst (play_move b (snd (scan d b true (-99) 99))),
               snd (play_move b (snd (scan d b true (-99) 99)))).
Proof.
  unfold game_step. rewrite minimax_slot_succ.
  destruct (snd (scan d b true (-99) 99) =? -1); [reflexivity |].
  destruct (play_move b (snd (scan d b true (-99) 99))) as [b' again].
  destruct again; reflexivity.
Qed.

Lemma scan_move_legal (d : nat) (b : board_type) (turn : bool)
    (alpha beta : Z) :
  snd (scan d b turn alpha beta) <> -1 ->
  In (snd (scan d b turn alpha beta)) (if turn then AC_PITS else OPP_PITS)
  /\ get b (snd (scan d b turn alpha beta)) <> 0.
Proof.
  intros Hm. unfold scan in *. destruct turn.
  - destruct (ac_loop_move (minimax_eval d) b AC_PITS (-99) (-1) alpha beta)
      as [H | H]; [contradiction | exact H].
  - destruct (opp_loop_move (minimax_eval d) b OPP_PITS 99 (-1) alpha beta)
      as [H | H]; [contradiction | exact H].
Qed.

Lemma game_position_48 (d : nat) (b : board_type) (turn : bool) :
  game_position (S d) b turn -> wf_board b /\ board_sum b = 48.
Proof.
  induction 1 as [garbage turn Hwf
                 | junk row b b' turn turn' Hpos [IHwf IHsum] Hrow Hstep].
  - rewrite init_board_is_start by exact Hwf.
    split; [split; [reflexivity | repeat constructor; lia] | reflexivity].
  - assert (Hmove : exists m, is_pit m /\ get b m <> 0
                              /\ b' = fst (play_move b m)).
    { destruct turn.
      - rewrite game_step_ac in Hstep.
        destruct (Z.eqb_spec (snd (scan d b true (-99) 99)) (-1))
          as [| Hm]; [discriminate |].
        destruct (scan_move_legal d b true (-99) 99 Hm) as [Hin Hne].
        exists (snd (scan d b true (-99) 99)).
        split; [exact (proj1 (Forall_forall _ _) AC_PITS_are_pits _ Hin) |].
        split; [exact Hne |]. congruence.
      - destruct (Hrow eq_refl) as [Hr Hne]. unfold game_step in Hstep.
        exists (12 - row). split; [right; lia |]. split; [exact Hne |].
        destruct (play_move b (12 - row)). cbn [fst]. congruence. }
    destruct Hmove as (m & Hpit & Hne & ->).
    pose proof (is_pit_range m Hpit) as Hm.
    split; [apply play_move_wf; assumption |].
    rewrite play_move_sum by (auto; lia). exact IHsum.
Qed.

(** X13.  The game keeps its 48 seeds: every position the loop of
    [main] reaches, with a search depth of 1 or more and legal rows
    from the opponent, is a board of 14 bytes whose cells sum to 48. *)
Theorem game_keeps_48_seeds (d : nat) (b : board_type) (turn : bool) :
  game_position (S d) b turn -> wf_board b /\ board_sum b = 48.
Proof. apply game_position_48. Qed.

Lemma game_keeps_48_seeds_witness :
  game_position 2 (fst (play_move start_board 9)) false
  /\ board_sum (fst (play_move start_board 9)) = 48.
Proof.
  assert (Hpos : game_position 2 (fst (play_move start_board 9)) false).
  { apply (game_round 2 0 3 (init_board 4 full_pit_board) _ false false).
    - apply game_start. split; [reflexivity | repeat constructor; lia].
    - intros _. split; [lia | vm_compute; discriminate].
    - vm_compute. reflexivity. }
  split; [exact Hpos |].
  exact (proj2 (game_keeps_48_seeds 1 _ false Hpos)).
Defined.

(** X14.  AlphaCala's round: in a position of the game at AlphaCala's
    turn, with a search depth of 1 or more, the loop stops exactly when
    AlphaCala's six pits are empty, and otherwise plays the pit that
    [minimax] wrote to [ac_move], a non-empty pit of 0..5, and keeps
    the turn exactly when [play_move] grants it. *)
Theorem game_step_alphacala (d : nat) (junk row : Z) (b : board_type) :
  game_position (S d) b true ->
  (game_step (S d) junk b true row = None
   <-> forall i, In i AC_PITS -> get b i = 0)
  /\ (forall b' turn',
        game_step (S d) junk b true row = Some (b', turn') ->
        exists m,
          snd (minimax (S d) b true (Some junk) (-99) 99) = Some m
          /\ reports (S d) b true (-99) 99 m
          /\ 0 <= m <= 5 /\ get b m <> 0
          /\ play_move b m = (b', turn')).
Proof.
  intros Hpos. destruct (game_position_48 d b true Hpos) as [Hwf Hsum].
  assert (Hsmall : small_board b) by (split; [exact Hwf | lia]).
  rewrite game_step_ac.
  destruct (Z.eqb_spec (snd (scan d b true (-99) 99)) (-1)) as [Hm | Hm].
  - split.
    + split; [intros _ | reflexivity].
      apply (scan_sentinel_no_move d b true (-99) 99 Hsmall);
        first [lia | exact Hm].
    + intros b' turn' H. discriminate H.
  - destruct (scan_move_legal d b true (-99) 99 Hm) as [Hin Hne]. split.
    + split; [discriminate |]. intros Hempty. exfalso.
      apply Hm. apply scan_all_empty. exact Hempty.
    + intros b' turn' H. exists (snd (scan d b true (-99) 99)).
      split; [apply minimax_slot_succ |].
      split; [apply reports_succ; reflexivity |].
      set (m := snd (scan d b true (-99) 99)) in *.
      split; [| split; [exact Hne |]].
      * unfold AC_PITS, In in Hin. lia.
      * rewrite (surjective_pairing (play_move b m)). congruence.
Qed.

Lemma game_step_alphacala_witness :
  game_position 3 (init_board 4 full_pit_board) true
  /\ game_step 3 0 (init_board 4 full_pit_board) true 0
     = Some (fst (play_move start_board 2), true)
  /\ exists m,
       snd (minimax 3 (init_board 4 full_pit_board) true (Some 0) (-99) 99)
       = Some m
       /\ reports 3 (init_board 4 full_pit_board) true (-99) 99 m
       /\ 0 <= m <= 5 /\ get (init_board 4 full_pit_board) m <> 0
       /\ play_move (init_board 4 full_pit_board) m
          = (fst (play_move start_board 2), true).
Proof.
  assert (Hpos : game_position 3 (init_board 4 full_pit_board) true).
  { apply game_start. split; [reflexivity | repeat constructor; lia]. }
  assert (Hstep : game_step 3 0 (init_board 4 full_pit_board) true 0
                  = Some (fst (play_move start_board 2), true))
    by (vm_compute; reflexivity).
  split; [exact Hpos |]. split; [exact Hstep |].
  exact (proj2 (game_step_alphacala 2 0 0 _ Hpos) _ _ Hstep).
Defined.

(** * The value of a finished game *)

Lemma sweep_eval_final (b : board_type) (turn : bool) :
  wf_board b ->
  (forall i, In i (if turn then AC_PITS else OPP_PITS) -> get b i = 0) ->
  sweep_eval b turn
  = if turn then 2 * get b 6 - board_sum b else board_sum b - 2 * get b 13.
Proof.
  intros Hwf Hempty.
  assert (Hsix : forall i, In i (if turn then AC_PITS else OPP_PITS) ->
                           get b i = 0) by exact Hempty.
  destruct turn; [rewrite sweep_eval_ac | rewrite sweep_eval_opp];
    cbn [AC_PITS OPP_PITS] in Hsix;
    [ pose proof (Hsix 0 ltac:(unfold AC_PITS, In; lia)) as E0;
      pose proof (Hsix 1 ltac:(unfold AC_PITS, In; lia)) as E1;
      pose proof (Hsix 2 ltac:(unfold AC_PITS, In; lia)) as E2;
      pose proof (Hsix 3 ltac:(unfold AC_PITS, In; lia)) as E3;
      pose proof (Hsix 4 ltac:(unfold AC_PITS, In; lia)) as E4;
      pose proof (Hsix 5 ltac:(unfold AC_PITS, In; lia)) as E5
    | pose proof (Hsix 7 ltac:(unfold OPP_PITS, In; lia)) as E0;
      pose proof (Hsix 8 ltac:(unfold OPP_PITS, In; lia)) as E1;
      pose proof (Hsix 9 ltac:(unfold OPP_PITS, In; lia)) as E2;
      pose proof (Hsix 10 ltac:(unfold OPP_PITS, In; lia)) as E3;
      pose proof (Hsix 11 ltac:(unfold OPP_PITS, In; lia)) as E4;
      pose proof (Hsix 12 ltac:(unfold OPP_PITS, In; lia)) as E5 ];
    clear Hsix Hempty; revert E0 E1 E2 E3 E4 E5;
    board_cells b Hwf; eval_cells;
    cbv [board_sum fold_right]; intros; lia.
Qed.

(** X15.  The value of a finished game is its final margin: when the
    six pits of the side to move are empty, [minimax] at depth 1 or
    more returns the difference of the stores once the other side's
    seeds are banked, that is twice AlphaCala's store minus all the
    seeds of the board on AlphaCala's turn, and all the seeds minus
    twice the opponent's store on the opponent's turn. *)
Theorem minimax_final_margin (d : nat) (b : board_type) (turn : bool)
    (move_out : option Z) (alpha beta : Z) :
  wf_board b ->
  (forall i, In i (if turn then AC_PITS else OPP_PITS) -> get b i = 0) ->
  fst (minimax (S d) b turn move_out alpha beta)
  = if turn then 2 * get b 6 - board_sum b else board_sum b - 2 * get b 13.
Proof.
  intros Hwf Hempty. rewrite minimax_succ. cbn [fst].
  rewrite (scan_all_empty d b turn alpha beta Hempty).
  change (-1 =? -1) with true. cbv iota.
  apply sweep_eval_final; assumption.
Qed.

Lemma minimax_final_margin_witness :
  wf_board ac_swept_board
  /\ (forall i, In i AC_PITS -> get ac_swept_board i = 0)
  /\ fst (minimax 5 ac_swept_board true None (-99) 99)
     = 2 * get ac_swept_board 6 - board_sum ac_swept_board.
Proof.
  assert (Hwf : wf_board ac_swept_board)
    by (split; [reflexivity | repeat constructor; lia]).
  assert (Hempty : forall i, In i (if true then AC_PITS else OPP_PITS) ->
                             get ac_swept_board i = 0).
  { intros i Hi. cbn in Hi.
    repeat (destruct Hi as [<- | Hi]; [reflexivity |]). contradiction. }
  split; [exact Hwf |]. split; [exact Hempty |].
  exact (minimax_final_margin 4 ac_swept_board true None (-99) 99 Hwf Hempty).
Defined.

(** * Printing the board *)

Example print_start_board_line :
  print_pit start_board 0 0 = String.String (Ascii.ascii_of_nat 48)
                                (String.String (Ascii.ascii_of_nat 52)
                                   String.EmptyString).
Proof. reflexivity. Qed.

Lemma in_bytes (v : Z) : 0 <= v < 256 -> In v bytes.
Proof.
  intros Hv. unfold bytes. apply in_map_iff. exists (Z.to_nat v).
  split; [lia |]. apply in_seq. lia.
Qed.

Lemma show_int_w2_digits (v : Z) :
  0 <= v < 256 -> digits_only (show_int_w2 v) = true.
Proof.
  intros Hv.
  assert (Hall : forallb (fun v => digits_only (show_int_w2 v)) bytes = true)
    by (vm_compute; reflexivity).
  rewrite forallb_forall in Hall. apply Hall, in_bytes, Hv.
Qed.

Lemma show_int_w2_inj (v w : Z) :
  0 <= v < 256 -> 0 <= w < 256 -> show_int_w2 v = show_int_w2 w -> v = w.
Proof.
  intros Hv Hw Heq.
  assert (Hall : forallb (fun v => forallb (fun w =>
                   implb (String.eqb (show_int_w2 v) (show_int_w2 w))
                         (v =? w)) bytes) bytes = true)
    by (vm_compute; reflexivity).
  rewrite forallb_forall in Hall. specialize (Hall v (in_bytes v Hv)).
  rewrite forallb_forall in Hall. specialize (Hall w (in_bytes w Hw)).
  rewrite Heq, String.eqb_refl in Hall. cbn [implb] in Hall.
  apply Z.eqb_eq. exact Hall.
Qed.

Lemma digits_delimited (s1 s2 r1 r2 : String.string) (c1 c2 : Ascii.ascii) :
  digits_only s1 = true -> digits_only s2 = true ->
  is_digit c1 = false -> is_digit c2 = false ->
  String.append s1 (String.String c1 r1)
  = String.append s2 (String.String c2 r2) ->
  s1 = s2 /\ r1 = r2.
Proof.
  revert s2. induction s1 as [|a s1 IH]; intros [|a2 s2] H1 H2 Hc1 Hc2 Heq;
    cbn [String.append digits_only] in *.
  - injection Heq as _ Hr. auto.
  - injection Heq as Ha _. subst a2.
    apply andb_true_iff in H2. destruct H2 as [H2 _]. congruence.
  - injection Heq as Ha _. subst a.
    apply andb_true_iff in H1. destruct H1 as [H1 _]. congruence.
  - injection Heq as Ha Hrest. subst a2.
    apply andb_true_iff in H1. destruct H1 as [_ H1].
    apply andb_true_iff in H2. destruct H2 as [_ H2].
    destruct (IH s2 H1 H2 Hc1 Hc2 Hrest) as [-> ->]. auto.
Qed.

Lemma append_assoc (a b c : String.string) :
  String.append (String.append a b) c = String.append a (String.append b c).
Proof.
  induction a as [|x a IH]; cbn [String.append]; [reflexivity |].
  rewrite IH. reflexivity.
Qed.

Lemma string_tail_eq (a : Ascii.ascii) (r1 r2 : String.string) :
  String.String a r1 = String.String a r2 -> r1 = r2.
Proof. intros H. injection H as H. exact H. Qed.

(** X16.  The printed board loses nothing: two boards of 14 bytes that
    [print_board] prints as the same characters are the same board. *)
Theorem print_board_inj (b1 b2 : board_type) :
  wf_board b1 -> wf_board b2 -> print_board b1 = print_board b2 -> b1 = b2.
Proof.
  intros H1 H2 Heq.
  board_cells b1 H1. board_cells b2 H2.
  unfold print_board, print_pit in Heq.
  cbn [map fold_right fill] in Heq.
  repeat match type of Heq with
         | context [get ?l ?k] =>
             let v := eval cbv in (get l k) in change (get l k) with v in Heq
         end.
  unfold endl in Heq.
  repeat first [rewrite !append_assoc in Heq
               | progress cbn [String.append] in Heq].
  repeat match type of Heq with
         | String.String _ _ = String.String _ _ =>
             apply string_tail_eq in Heq
         | String.append (show_int_w2 ?x) _
           = String.append (show_int_w2 ?y) _ =>
             let Hx := fresh "Hx" in
             apply digits_delimited in Heq;
             [ destruct Heq as [Hx Heq];
               apply show_int_w2_inj in Hx; [subst x | lia | lia]
             | apply show_int_w2_digits; lia
             | apply show_int_w2_digits; lia
             | reflexivity
             | reflexivity ]
         end.
  reflexivity.
Qed.

Lemma print_board_inj_witness :
  wf_board start_board /\ wf_board (init_board 4 full_pit_board)
  /\ print_board start_board = print_board (init_board 4 full_pit_board)
  /\ start_board = init_board 4 full_pit_board.
Proof.
  assert (Hwf : wf_board start_board)
    by (split; [reflexivity | repeat constructor; lia]).
  assert (Hwf' : wf_board (init_board 4 full_pit_board))
    by (split; [reflexivity | vm_compute; repeat constructor; discriminate]).
  assert (Heq : print_board start_board
                = print_board (init_board 4 full_pit_board)) by reflexivity.
  split; [exact Hwf |]. split; [exact Hwf' |]. split; [exact Heq |].
  exact (print_board_inj _ _ Hwf Hwf' Heq).
Defined.
